(** * eureka-client: the sharded concurrent map and the heartbeat reactor

    A shallow embedding of [concurrent_map.go] and of the beat reactor
    ([BeatReactor], [AddBeatInfo], [RemoveBeatInfo], [sendInstanceBeat]),
    followed by the status checks of package [requests], the REST calls
    that drive the reactor, the logger and the client's configuration.

    Go code mutates shards, instance records and the semaphore in place; the
    embedding threads the mutated store explicitly through a state monad
    whose failure case stands for a Go run-time panic (index out of range,
    nil dereference, failed type assertion). *)

From stdpp Require Import gmap strings list fin_maps.
From Stdlib Require Import ZArith Ascii String DecimalString.

Local Open Scope Z_scope.

(** ** A state monad with panics *)

Module Go.

Definition M (S A : Type) : Type := S -> option (A * S).

Definition ret {S A} (a : A) : M S A := fun s => Some (a, s).

Definition bind {S A B} (c : M S A) (k : A -> M S B) : M S B :=
  fun s => match c s with
           | Some (a, s') => k a s'
           | None => None
           end.

Definition panic {S A} : M S A := fun _ => None.

Definition get {S} : M S S := fun s => Some (s, s).

Definition put {S} (s : S) : M S unit := fun _ => Some (tt, s).

(** [for _, x := range xs { body x }] *)
Fixpoint for_each {S A} (xs : list A) (body : A -> M S unit) : M S unit :=
  match xs with
  | [] => ret tt
  | x :: xs' => bind (body x) (fun _ => for_each xs' body)
  end.

(** The results of running [f] on each element in turn. *)
Fixpoint map_each {S A B} (f : A -> M S B) (xs : list A) : M S (list B) :=
  match xs with
  | [] => ret []
  | x :: xs' => bind (f x) (fun b => bind (map_each f xs') (fun bs => ret (b :: bs)))
  end.

(** Run a computation on a component of the state. *)
Definition zoom {S T A} (proj : S -> T) (upd : T -> S -> S) (c : M T A) : M S A :=
  fun s => match c (proj s) with
           | Some (a, t') => Some (a, upd t' s)
           | None => None
           end.

Definition exec {S A} (c : M S A) (s : S) : option S := snd <$> c s.
Definition eval {S A} (c : M S A) (s : S) : option A := fst <$> c s.

End Go.

Notation "'do' x <- c1 ; c2" := (Go.bind c1 (fun x => c2))
  (at level 10, x name, c1 at level 100, c2 at level 200,
   format "'[v' 'do'  x  <-  c1 ; '/' c2 ']'").
Notation "c1 ;; c2" := (Go.bind c1 (fun _ => c2))
  (at level 100, c2 at level 200, right associativity).

(** ** hash/fnv: 32-bit FNV-1 *)

Module fnv.

Definition offset32 : Z := 2166136261.
Definition prime32 : Z := 16777619.

Definition uint32 (z : Z) : Z := z mod 2 ^ 32.

(** [sum32.Write]: [hash *= prime32; hash ^= uint32(c)] for every byte. *)
Definition Write (hash : Z) (data : list Z) : Z :=
  fold_left (fun h c => Z.lxor (uint32 (h * prime32)) c) data hash.

Definition bytes (s : string) : list Z :=
  map (fun a => Z.of_nat (nat_of_ascii a)) (list_ascii_of_string s).

Definition Sum32 (s : string) : Z := Write offset32 (bytes s).

End fnv.

(** ** concurrent_map.go *)

(** The zero value of the value type: what [v, ok := items[key]] yields for
    a missing key ([nil] for [interface{}]). *)
Class Interface (V : Type) := nil : V.

Module CMap.

Definition ShardCount : nat := 32.

Section ConcurrentMap.
Context {V : Type} `{!Interface V}.

(** [ConcurrentMapShared]: the lock carries no data, a shard is its
    [items]. [ConcurrentMap] is the slice of shards. *)
Abbreviation ConcurrentMapShared := (gmap string V).
Abbreviation ConcurrentMap := (list (gmap string V)).
Abbreviation cm := (Go.M (list (gmap string V))).

Definition NewConcurrentMap : list (gmap string V) :=
  replicate ShardCount (∅ : gmap string V).

Definition shard_index (key : string) : nat :=
  Z.to_nat (fnv.Sum32 key mod Z.of_nat ShardCount).

(** [m[i]]: panics when [i] is out of range. *)
Definition shard_at (i : nat) : cm (gmap string V) :=
  fun m => match m !! i with
           | Some shard => Some (shard, m)
           | None => None
           end.

Definition GetShard (key : string) : cm (gmap string V) :=
  shard_at (shard_index key).

(** A shard is held by pointer: a write to [shard.items] is a write to the
    slot of the slice the shard was read from. *)
Definition store_shard (i : nat) (shard : gmap string V) : cm unit :=
  fun m => Some (tt, <[i := shard]> m).

(** [v, ok := items[key]] *)
Definition index (shard : gmap string V) (key : string) : V * bool :=
  match shard !! key with
  | Some v => (v, true)
  | None => (nil, false)
  end.

Definition Set_ (key : string) (value : V) : cm unit :=
  do shard <- GetShard key;
  store_shard (shard_index key) (<[key := value]> shard).

(** [data] is a Go map: its keys are distinct, and the loop visits them in
    an order the language leaves open. *)
Definition MSet (data : gmap string V) : cm unit :=
  Go.for_each (map_to_list data) (fun kv => Set_ kv.1 kv.2).

Definition Upsert (key : string) (value : V) (cb : bool -> V -> V -> V) : cm V :=
  do shard <- GetShard key;
  let '(v, ok) := index shard key in
  let res := cb ok v value in
  store_shard (shard_index key) (<[key := res]> shard) ;;
  Go.ret res.

Definition SetIfAbsent (key : string) (value : V) : cm bool :=
  do shard <- GetShard key;
  let '(_, ok) := index shard key in
  (if negb ok then store_shard (shard_index key) (<[key := value]> shard)
   else Go.ret tt) ;;
  Go.ret (negb ok).

Definition Get (key : string) : cm (V * bool) :=
  do shard <- GetShard key;
  Go.ret (index shard key).

Definition Count : cm Z :=
  fold_left
    (fun acc i => do count <- acc; do shard <- shard_at i;
                  Go.ret (count + Z.of_nat (size shard)))
    (seq 0 ShardCount) (Go.ret 0).

Definition Has (key : string) : cm bool :=
  do shard <- GetShard key;
  Go.ret (index shard key).2.

Definition Remove (key : string) : cm unit :=
  do shard <- GetShard key;
  store_shard (shard_index key) (delete key shard).

Definition Pop (key : string) : cm (V * bool) :=
  do shard <- GetShard key;
  let r := index shard key in
  store_shard (shard_index key) (delete key shard) ;;
  Go.ret r.

Definition IsEmpty : cm bool :=
  do n <- Count; Go.ret (n =? 0).

(** [for k, v := range shard.items { tmp[k] = v }] *)
Definition copy_into (shard tmp : gmap string V) : gmap string V :=
  map_fold (fun k v acc => <[k := v]> acc) tmp shard.

Definition Items : cm (gmap string V) :=
  fun m => Some (fold_left (fun tmp shard => copy_into shard tmp) m ∅, m).

Definition Keys : cm (list string) :=
  do count <- Count;
  fun m => Some (fold_left (fun keys shard => keys ++ (map_to_list shard).*1) m [], m).

(** [IterCb]: what the callback does is a transformer of the caller's
    state [A]; it is run on every entry of every shard, shard by shard. *)
Definition IterCb {A} (fn : string -> V -> A -> A) (a : A) : cm A :=
  fun m =>
    Some (fold_left
            (fun a shard =>
               fold_left (fun a kv => fn kv.1 kv.2 a) (map_to_list shard) a)
            m a, m).

Section Marshal.
(** [encoding/json.Marshal] is an external collaborator. *)
Context {B E : Type} (json_Marshal : gmap string V -> B * E).

Definition MarshalJSON : cm (B * E) :=
  fun m =>
    let tmp := fold_left (fun tmp shard =>
                 map_fold (fun k v acc => <[k := v]> acc) tmp shard) m ∅ in
    Some (json_Marshal tmp, m).
End Marshal.

(** A map as [NewConcurrentMap] allocates it: one shard per index. *)
Definition allocated (m : list (gmap string V)) : Prop :=
  List.length m = ShardCount.

(** The association of a key, read off the shard the key hashes to. *)
Definition find (key : string) (m : list (gmap string V)) : option V :=
  m !! shard_index key ≫= (λ shard : gmap string V, shard !! key).

(** Every entry sits in the shard its key hashes to. *)
Definition sharded (m : list (gmap string V)) : Prop :=
  ∀ i shard key, m !! i = Some shard → is_Some (shard !! key) → shard_index key = i.

(** Entries sit in their shards, counting the shards from [off]. *)
Definition sharded_from (off : nat) (l : list (gmap string V)) : Prop :=
  ∀ j shard key, l !! j = Some shard → is_Some (shard !! key) →
                 shard_index key = (off + j)%nat.

(** The same, as a check that computes. *)
Definition shardedb (m : list (gmap string V)) : bool :=
  forallb (fun ishard : nat * gmap string V =>
             forallb (fun kv : string * V => bool_decide (shard_index kv.1 = ishard.1))
               (map_to_list ishard.2))
    (imap pair m).

(** The keys of the shards from left to right, and their entries. *)
Definition shard_keys (l : list (gmap string V)) : list string :=
  l ≫= (λ shard : gmap string V, (map_to_list shard).*1).

Definition shard_entries (l : list (gmap string V)) : list (string * V) :=
  l ≫= (λ shard : gmap string V, map_to_list shard).

Definition found (o : option V) : V * bool :=
  match o with
  | Some v => (v, true)
  | None => (nil, false)
  end.

End ConcurrentMap.
End CMap.

(** ** The beat reactor *)

Module Reactor.

(** Addresses of [Instance] records ([*Instance]). *)
Abbreviation ptr := positive.

(** The fields of [Instance] the reactor reads or writes. *)
Record Instance := mkInstance {
  App : string;
  InstanceID : string;
  Status : string;
}.

(** The dynamic values the reactor stores in its maps: [*Instance] in
    [beatMap], [int64] milliseconds in [beatRecordMap]. *)
Inductive Value :=
| VNil
| VInstance (p : ptr)
| VInt64 (n : Z).

#[global] Instance Value_Interface : Interface Value := VNil.

(** [semaphore.Weighted]: capacity and slots in use. *)
Record Weighted := mkWeighted { size : Z; cur : Z }.

Record Config := mkConfig { DefaultZone : string; LogLevel : Z }.

Record BeatReactor := mkBeatReactor {
  config : option Config;
  beatMap : list (gmap string Value);
  clientBeatIntervalInSecs : Z;
  beatThreadCount : Z;
  beatThreadSemaphore : Weighted;
  beatRecordMap : list (gmap string Value);
  Period : Z;
}.

Definition DefaultBeatThreadNum : Z := 20.

(** [time.Second], in nanoseconds. *)
Definition Second : Z := 1000000000.

(** Two's complement wrap-around of [int64] arithmetic. *)
Definition int64 (z : Z) : Z := (z + 2 ^ 63) mod 2 ^ 64 - 2 ^ 63.

Definition NewWeighted (n : Z) : Weighted := mkWeighted n 0.

(** [config.LogLevel] dereferences [config]: a nil [config] panics. *)
Definition NewBeatReactor (config : option Config) (clientBeatIntervalInSecs : Z)
  : option BeatReactor :=
  let clientBeatIntervalInSecs :=
    if clientBeatIntervalInSecs <=? 0 then 5 else clientBeatIntervalInSecs in
  match config with
  | None => None
  | Some _ =>
      Some {| config := config;
              beatMap := CMap.NewConcurrentMap;
              clientBeatIntervalInSecs := clientBeatIntervalInSecs;
              beatThreadCount := DefaultBeatThreadNum;
              beatThreadSemaphore := NewWeighted (int64 DefaultBeatThreadNum);
              beatRecordMap := CMap.NewConcurrentMap;
              Period := int64 (clientBeatIntervalInSecs * Second) |}
  end.

(** What the program observably does, in order. *)
Inductive Event :=
| EvAcquire
| EvRelease
| EvHeartbeat (zone app instanceID : string)
| EvSleep (d : Z).

(** The store the reactor's methods and tasks run against: the [Instance]
    records behind the pointers, the reactor, the tasks started by a [go]
    statement (key and record pointer each is bound to), and the events
    so far. *)
Record State := mkState {
  heap : gmap ptr Instance;
  reactor : BeatReactor;
  goroutines : list (string * ptr);
  trace : list Event;
}.

Abbreviation rm := (Go.M State).

Definition set_beatMap (bm : list (gmap string Value)) (s : State) : State :=
  let br := reactor s in
  mkState (heap s)
    (mkBeatReactor (config br) bm (clientBeatIntervalInSecs br) (beatThreadCount br)
       (beatThreadSemaphore br) (beatRecordMap br) (Period br))
    (goroutines s) (trace s).

Definition set_beatRecordMap (rmap : list (gmap string Value)) (s : State) : State :=
  let br := reactor s in
  mkState (heap s)
    (mkBeatReactor (config br) (beatMap br) (clientBeatIntervalInSecs br)
       (beatThreadCount br) (beatThreadSemaphore br) rmap (Period br))
    (goroutines s) (trace s).

Definition set_semaphore (w : Weighted) (s : State) : State :=
  let br := reactor s in
  mkState (heap s)
    (mkBeatReactor (config br) (beatMap br) (clientBeatIntervalInSecs br)
       (beatThreadCount br) w (beatRecordMap br) (Period br))
    (goroutines s) (trace s).

Definition set_heap (h : gmap ptr Instance) (s : State) : State :=
  mkState h (reactor s) (goroutines s) (trace s).

Definition spawn (k : string) (beatInfo : ptr) (s : State) : State :=
  mkState (heap s) (reactor s) (goroutines s ++ [(k, beatInfo)]) (trace s).

Definition with_trace (s : State) (t : list Event) : State :=
  mkState (heap s) (reactor s) (goroutines s) (trace s ++ t).

(** The semaphore with one slot more, or one less, in use. *)
Definition take_slot (s : State) : State :=
  let w := beatThreadSemaphore (reactor s) in
  set_semaphore (mkWeighted (size w) (cur w + 1)) s.

Definition free_slot (s : State) : State :=
  let w := beatThreadSemaphore (reactor s) in
  set_semaphore (mkWeighted (size w) (cur w - 1)) s.

Definition on_beatMap {A} (c : Go.M (list (gmap string Value)) A) : rm A :=
  Go.zoom (fun s => beatMap (reactor s)) set_beatMap c.

Definition on_beatRecordMap {A} (c : Go.M (list (gmap string Value)) A) : rm A :=
  Go.zoom (fun s => beatRecordMap (reactor s)) set_beatRecordMap c.

Definition emit (e : Event) : rm unit :=
  fun s => Some (tt, with_trace s [e]).

(** Reading through a pointer; nil or dangling panics. *)
Definition load (p : ptr) : rm Instance :=
  fun s => match heap s !! p with
           | Some i => Some (i, s)
           | None => None
           end.

(** [p.Status = st] *)
Definition store_Status (p : ptr) (st : string) : rm unit :=
  do i <- load p;
  fun s => Some (tt, set_heap (<[p := mkInstance (App i) (InstanceID i) st]> (heap s)) s).

(** [data.( *Instance)] *)
Definition as_Instance (data : Value) : rm ptr :=
  match data with
  | VInstance p => Go.ret p
  | _ => Go.panic
  end.

(** [go br.sendInstanceBeat(k, beatInfo)] *)
Definition go_sendInstanceBeat (k : string) (beatInfo : ptr) : rm unit :=
  fun s => Some (tt, spawn k beatInfo s).

(** [br.mux] serialises [AddBeatInfo] and [RemoveBeatInfo]: each runs as
    one step. Logging is not modelled. *)
Definition AddBeatInfo (beatInfo : ptr) : rm unit :=
  do i <- load beatInfo;
  let k := InstanceID i in
  do r <- on_beatMap (CMap.Get k);
  do beatInfo <- (if r.2 then
                    do beatInfo <- as_Instance r.1;
                    store_Status beatInfo "UP" ;;
                    on_beatMap (CMap.Remove k) ;;
                    Go.ret beatInfo
                  else Go.ret beatInfo);
  on_beatMap (CMap.Set_ k (VInstance beatInfo)) ;;
  go_sendInstanceBeat k beatInfo.

Definition RemoveBeatInfo (serviceName instanceId : string) : rm unit :=
  let k := instanceId in
  do r <- on_beatMap (CMap.Get k);
  (if r.2 then
     do beatInfo <- as_Instance r.1;
     store_Status beatInfo "UP"
   else Go.ret tt) ;;
  on_beatMap (CMap.Remove k).

(** *** The per-key task *)

Inductive error := ErrNotFound | ErrOther.

(** [errors.Is(err, target)] on the two classes of error. *)
Definition errors_Is (err target : error) : bool :=
  match err, target with
  | ErrNotFound, ErrNotFound => true
  | ErrOther, ErrOther => true
  | _, _ => false
  end.

(** What the environment decides in one pass through the loop body: whether
    [Acquire] reports an error, what [Heartbeat] returns ([None] is a nil
    error), and the clock ([time.Now().UnixNano()]). *)
Record Env := mkEnv {
  acquire_err : bool;
  beat : option error;
  now : Z;
}.

(** A pass in which the slot is granted and the heartbeat fails with an
    error other than not-found. *)
Definition transient (e : Env) : bool :=
  negb (acquire_err e) &&
  match beat e with
  | Some err => negb (errors_Is err ErrNotFound)
  | None => false
  end.

Inductive Acquired := AcqOk | AcqErr | AcqWait.

(** [Weighted.Acquire(ctx, 1)]: takes a slot when one is free, waits
    otherwise; an error leaves the semaphore as it was. *)
Definition Acquire (e : Env) : rm Acquired :=
  if acquire_err e then Go.ret AcqErr
  else
    do s <- Go.get;
    let w := beatThreadSemaphore (reactor s) in
    if 1 <=? size w - cur w then
      Go.put (take_slot s) ;;
      emit EvAcquire ;;
      Go.ret AcqOk
    else Go.ret AcqWait.

(** [Weighted.Release(1)]: panics when more is released than is held. *)
Definition Release : rm unit :=
  do s <- Go.get;
  let w := beatThreadSemaphore (reactor s) in
  if cur w - 1 <? 0 then Go.panic
  else
    Go.put (free_slot s) ;;
    emit EvRelease.

(** [Heartbeat] is the external call; its result comes from the
    environment. *)
Definition Heartbeat (e : Env) (zone app instanceID : string) : rm (option error) :=
  emit (EvHeartbeat zone app instanceID) ;;
  Go.ret (beat e).

(** [t := time.NewTimer(br.Period); <-t.C] *)
Definition sleep_Period : rm unit :=
  do s <- Go.get;
  emit (EvSleep (Period (reactor s))).

Definition load_config : rm Config :=
  fun s => match config (reactor s) with
           | Some c => Some (c, s)
           | None => None
           end.

(** How one pass through the body of the [for] loop ends. [Waiting] is the
    task parked in [Acquire] with no slot free. *)
Inductive Control := Continue | Return | Waiting.

Definition loop_body (k : string) (beatInfo : ptr) (e : Env) : rm Control :=
  do a <- Acquire e;
  match a with
  | AcqErr => Go.ret Return
  | AcqWait => Go.ret Waiting
  | AcqOk =>
      do i <- load beatInfo;
      if negb (String.eqb (Status i) "UP") then
        Release ;;
        Go.ret Return
      else
        do cfg <- load_config;
        do err <- Heartbeat e (DefaultZone cfg) (App i) (InstanceID i);
        match err with
        | Some err =>
            if errors_Is err ErrNotFound then
              on_beatMap (CMap.Remove k) ;;
              Go.ret Return
            else
              Release ;;
              sleep_Period ;;
              Go.ret Continue
        | None =>
            on_beatRecordMap (CMap.Set_ k (VInt64 (now e ÷ 1000000))) ;;
            Release ;;
            sleep_Period ;;
            Go.ret Continue
        end
  end.

(** The loop, driven by the environment's answers pass by pass. The result
    is how the last pass taken ended: [Continue] when the answers ran out
    with the task still looping. *)
Fixpoint sendInstanceBeat (k : string) (beatInfo : ptr) (es : list Env) : rm Control :=
  match es with
  | [] => Go.ret Continue
  | e :: es' =>
      do c <- loop_body k beatInfo e;
      match c with
      | Continue => sendInstanceBeat k beatInfo es'
      | _ => Go.ret c
      end
  end.

#[export] Instance Event_eq_dec : EqDecision Event.
Proof. solve_decision. Defined.

Definition count_event (e : Event) (t : list Event) : nat :=
  List.length (filter (fun x => x = e) t).

(** The four events of a pass that reaches the sleep. *)
Definition beat_pass (s : State) (cfg : Config) (i : Instance) : list Event :=
  [EvAcquire; EvHeartbeat (DefaultZone cfg) (App i) (InstanceID i);
   EvRelease; EvSleep (Period (reactor s))].

(** A pass in which the slot is granted and the heartbeat succeeds, and one
    in which it is answered with not-found. *)
Definition succeeds (e : Env) : bool :=
  negb (acquire_err e) &&
  match beat e with
  | Some _ => false
  | None => true
  end.

Definition not_found (e : Env) : bool :=
  negb (acquire_err e) &&
  match beat e with
  | Some err => errors_Is err ErrNotFound
  | None => false
  end.

(** A state a task bound to the record at [p] can run in: the record and the
    configuration exist, both maps have their shards, and the semaphore
    counts between nothing and its capacity in use. *)
Definition ready (s : State) (p : ptr) : Prop :=
  is_Some (heap s !! p) ∧
  is_Some (config (reactor s)) ∧
  CMap.allocated (beatMap (reactor s)) ∧
  CMap.allocated (beatRecordMap (reactor s)) ∧
  0 ≤ cur (beatThreadSemaphore (reactor s)) ≤ size (beatThreadSemaphore (reactor s)).

(** What a task may change from [s] to [s']: it appends to the trace, may
    keep a slot, may add or refresh beat records and may drop live keys;
    the records behind the pointers, the configuration, the period, the
    capacity and the started tasks stay. *)
Definition evolves (s s' : State) : Prop :=
  heap s' = heap s ∧
  config (reactor s') = config (reactor s) ∧
  Period (reactor s') = Period (reactor s) ∧
  goroutines s' = goroutines s ∧
  size (beatThreadSemaphore (reactor s')) = size (beatThreadSemaphore (reactor s)) ∧
  cur (beatThreadSemaphore (reactor s)) ≤ cur (beatThreadSemaphore (reactor s')) ∧
  (∀ k, is_Some (CMap.find k (beatRecordMap (reactor s))) →
        is_Some (CMap.find k (beatRecordMap (reactor s')))) ∧
  (∀ k v, CMap.find k (beatMap (reactor s')) = Some v →
          CMap.find k (beatMap (reactor s)) = Some v) ∧
  (∃ t, trace s' = trace s ++ t).

(** The live map holds records only, and each of them exists. *)
Definition live_ok (s : State) : Prop :=
  CMap.allocated (beatMap (reactor s)) ∧
  ∀ k v, CMap.find k (beatMap (reactor s)) = Some v →
         ∃ p, v = VInstance p ∧ is_Some (heap s !! p).

(** The same, as a check that computes. *)
Definition live_okb (s : State) : bool :=
  bool_decide (List.length (beatMap (reactor s)) = CMap.ShardCount) &&
  forallb (fun kv : string * Value =>
             match kv.2 with
             | VInstance p => bool_decide (is_Some (heap s !! p))
             | _ => false
             end)
    (CMap.shard_entries (beatMap (reactor s))).

(** The semaphore's bookkeeping is sound and a slot is free. *)
Definition slot_free (s : State) : Prop :=
  let w := beatThreadSemaphore (reactor s) in 0 ≤ cur w ∧ cur w < size w.

End Reactor.

(** ** A running example

    One reactor with a 30 second interval, the record of an instance and a
    second record with the same instance id, as a repeated registration
    passes it. *)

Module Scenario.
Import Reactor.

Definition cfg : Config := mkConfig "http://localhost:8761/eureka/" 0.

Definition key : string := "localhost:order-service:8886".

Definition first_record : Instance := mkInstance "ORDER-SERVICE" key "UP".
Definition second_record : Instance := mkInstance "ORDER-SERVICE-V2" key "UP".

Definition br : BeatReactor :=
  mkBeatReactor (Some cfg) CMap.NewConcurrentMap 30 20 (mkWeighted 20 0)
    CMap.NewConcurrentMap 30000000000.

Definition fresh : State :=
  mkState {[ 1%positive := first_record; 2%positive := second_record ]} br [] [].

(** After [AddBeatInfo] of the first record. *)
Definition registered : State :=
  default fresh (Go.exec (AddBeatInfo 1%positive) fresh).

(** The same with every slot of the semaphore in use, and with the record
    marked as down by its owner. *)
Definition saturated : State := set_semaphore (mkWeighted 20 20) registered.

Definition marked_down : State :=
  set_heap (<[1%positive := mkInstance "ORDER-SERVICE" key "DOWN"]> (heap registered))
    registered.

(** A map holding two keys. *)
Definition two_keys : list (gmap string Value) :=
  default CMap.NewConcurrentMap
    (Go.exec (CMap.Set_ "a" (VInt64 1) ;; CMap.Set_ "b" (VInt64 2))
       CMap.NewConcurrentMap).

End Scenario.

(** ** The registry's REST calls, the logger and the client

    The HTTP exchange itself, URL parsing and the case mappings of package
    [strings] are outside the repository: they are parameters of the
    sections below. *)

Module Strings.

(** [strings.HasSuffix] *)
Definition HasSuffix (s suffix : string) : bool :=
  (String.length suffix <=? String.length s)%nat &&
  String.eqb
    (substring (String.length s - String.length suffix) (String.length suffix) s)
    suffix.

(** [%d] of an integer. *)
Definition itoa (z : Z) : string := NilZero.string_of_int (Z.to_int z).

End Strings.

Module Requests.

(** Error values. [ErrNotFound] is the package variable of the client,
    compared by identity; the other constructors are made where the error
    arises: [errors.New] and [fmt.Errorf] without [%w], [fmt.Errorf] with
    [%w], and errors handed up by the standard library. *)
Inductive error :=
| ErrNotFound
| errorString (msg : string)
| wrapError (msg : string) (err : error)
| foreign (msg : string).

(** [err.Error()] *)
Definition Error (err : error) : string :=
  match err with
  | ErrNotFound => "not found"
  | errorString msg => msg
  | wrapError msg _ => msg
  | foreign msg => msg
  end.

(** [errors.Is(err, ErrNotFound)]: the chain of wrapped errors is searched
    for the package variable. *)
Fixpoint Is_ErrNotFound (err : error) : bool :=
  match err with
  | ErrNotFound => true
  | wrapError _ err' => Is_ErrNotFound err'
  | errorString _ | foreign _ => false
  end.

(** The part of [http.Response] the package reads. *)
Record Response := mkResponse { StatusCode : Z }.

(** [Result]: a nil [Resp] is [None], a nil [Err] is [None]. *)
Record Result := mkResult { Resp : option Response; Err : option error }.

Definition StatusOK : Z := 200.
Definition StatusMultipleChoices : Z := 300.
Definition StatusNotFound : Z := 404.

(** [r.Resp.StatusCode] on a nil [Resp] panics: the outer [option]. *)
Definition StatusOk (r : Result) : option Result :=
  match Err r with
  | Some _ => Some r
  | None =>
      match Resp r with
      | None => None
      | Some resp =>
          if negb (StatusCode resp =? StatusOK) then
            Some (mkResult (Resp r) (Some (errorString "status code is not 200")))
          else Some r
      end
  end.

Definition Status2xx (r : Result) : option Result :=
  match Err r with
  | Some _ => Some r
  | None =>
      match Resp r with
      | None => None
      | Some resp =>
          if (StatusCode resp <? StatusOK) || (StatusCode resp >=? StatusMultipleChoices) then
            Some (mkResult (Resp r)
                    (Some (errorString "status code is not match [200, 300)")))
          else Some r
      end
  end.

End Requests.

Module Api.
Import Requests.

(** What the reactor's task makes of an error of [Heartbeat]. *)
Definition task_error (err : error) : Reactor.error :=
  if Is_ErrNotFound err then Reactor.ErrNotFound else Reactor.ErrOther.

Section Calls.
(** [url.Parse], [url.JoinPath], the [Path] field of a [*url.URL] and its
    [String] method, [url.PathEscape]; [exchange method u] is the request
    [requests.Post(u)]...[.Send()] (or [Put], [Delete]) with the registry's
    answer. *)
Context {URL : Type}
  (url_Parse : string -> URL * option error)
  (url_JoinPath : string -> string -> string * option error)
  (Path : URL -> string)
  (with_Path : string -> URL -> URL)
  (URL_String : URL -> string)
  (url_PathEscape : string -> string)
  (exchange : string -> string -> Result).

Definition buildURL (base path : string) : string * option error :=
  let '(u, err) := url_Parse base in
  match err with
  | Some err => ("", Some (wrapError ("invalid zone URL: " +:+ Error err) err))
  | None =>
      let '(joined, err) := url_JoinPath (Path u) path in
      match err with
      | Some _ => ("", Some (errorString ("failed to join path: " +:+ path)))
      | None => (URL_String (with_Path joined u), None)
      end
  end.

(** [Heartbeat]: the outer [option] is a panic (an answer without error and
    without response). *)
Definition Heartbeat (zone app instanceID : string) : option (option error) :=
  let urlPath := "apps/" +:+ url_PathEscape app +:+ "/" +:+ url_PathEscape instanceID in
  let '(u, err) := buildURL zone urlPath in
  match err with
  | Some err => Some (Some err)
  | None =>
      let result := exchange "PUT" u in
      match Err result with
      | Some err => Some (Some err)
      | None =>
          match Resp result with
          | None => None
          | Some resp =>
              if StatusCode resp =? StatusOK then Some None
              else if StatusCode resp =? StatusNotFound then Some (Some ErrNotFound)
              else Some (Some (errorString
                                 ("heartbeat failed, invalid status code: "
                                  +:+ Strings.itoa (StatusCode resp))))
          end
      end
  end.

Definition from_option {S A} (o : option A) : Go.M S A :=
  fun s => match o with
           | Some a => Some (a, s)
           | None => None
           end.

(** [Register]. [beater] tells whether [instance.Beater] is set; it then
    points to the reactor of the state, and a call through a nil [Beater]
    panics. *)
Definition Register (zone app : string) (instance : Reactor.ptr) (beater : bool)
  : Reactor.rm (option error) :=
  let urlPath := "apps/" +:+ url_PathEscape app in
  let '(u, err) := buildURL zone urlPath in
  match err with
  | Some err => Go.ret (Some err)
  | None =>
      do result <- from_option (Status2xx (exchange "POST" u));
      (match Err result with
       | None => if beater then Reactor.AddBeatInfo instance else Go.panic
       | Some _ => Go.ret tt
       end) ;;
      Go.ret (Err result)
  end.

Definition UnRegister (zone app : string) (instance : Reactor.ptr) (beater : bool)
  : Reactor.rm (option error) :=
  do i <- Reactor.load instance;
  let urlPath := "apps/" +:+ url_PathEscape app +:+ "/"
                 +:+ url_PathEscape (Reactor.InstanceID i) in
  let '(u, err) := buildURL zone urlPath in
  match err with
  | Some err => Go.ret (Some err)
  | None =>
      do result <- from_option (StatusOk (exchange "DELETE" u));
      (match Err result with
       | None =>
           if beater then Reactor.RemoveBeatInfo app (Reactor.InstanceID i)
           else Go.ret tt
       | Some _ => Go.ret tt
       end) ;;
      Go.ret (Err result)
  end.

(** [ConnectDetection]: [doHeartbeat] is [Heartbeat] on the client's zone,
    application and instance id. *)
Definition ConnectDetection (zone app instanceID : string) : option (option error) :=
  match Heartbeat zone app instanceID with
  | None => None
  | Some None => Some None
  | Some (Some err) => if Is_ErrNotFound err then Some None else Some (Some err)
  end.

End Calls.
End Api.

Module Log.

Definition DEBUG : Z := 4.
Definition INFO : Z := 3.
Definition WARN : Z := 2.
Definition ERROR : Z := 1.

Definition ESC : string := String (ascii_of_nat 27) "".
Definition Reset : string := ESC +:+ "[0m".
Definition Red : string := ESC +:+ "[31m".
Definition Green : string := ESC +:+ "[32m".
Definition Yellow : string := ESC +:+ "[33m".
Definition Cyan : string := ESC +:+ "[36m".

(** [DefaultLogger] *)
Record DefaultLogger := mkLogger { level : Z }.

Section Logger.
(** [strings.ToUpper] and the environment read by [os.Getenv]. *)
Context (strings_ToUpper : string -> string) (os_Getenv : string -> string).

Definition initialize (l : DefaultLogger) : DefaultLogger :=
  if level l <? 1 then
    let v := strings_ToUpper (os_Getenv "LOG_LEVEL") in
    if String.eqb v "DEBUG" then mkLogger DEBUG
    else if String.eqb v "INFO" then mkLogger INFO
    else if String.eqb v "WARN" then mkLogger WARN
    else if String.eqb v "ERROR" then mkLogger ERROR
    else mkLogger INFO
  else l.

Definition NewLogger (logLevel : Z) : DefaultLogger :=
  initialize (mkLogger logLevel).

End Logger.

(** [%v] of an error: its message, or [<nil>]. *)
Definition show_error (err : option Requests.error) : string :=
  match err with
  | Some err => Requests.Error err
  | None => "<nil>"
  end.

(** The four methods: the text handed to [log.Printf], when there is one. *)
Definition Debug (l : DefaultLogger) (msg : string) : option string :=
  if level l >=? DEBUG then Some (Green +:+ "DEBUG" +:+ Reset +:+ ": " +:+ msg) else None.

Definition Info (l : DefaultLogger) (msg : string) : option string :=
  if level l >=? INFO then Some (Cyan +:+ "INFO" +:+ Reset +:+ ": " +:+ msg) else None.

Definition Warn (l : DefaultLogger) (msg : string) (err : option Requests.error)
  : option string :=
  if level l >=? WARN
  then Some (Yellow +:+ "WARN" +:+ Reset +:+ ": " +:+ msg +:+ ", " +:+ show_error err)
  else None.

Definition Error (l : DefaultLogger) (msg : string) (err : option Requests.error)
  : option string :=
  if level l >=? ERROR
  then Some (Red +:+ "ERROR" +:+ Reset +:+ ": " +:+ msg +:+ ", " +:+ show_error err)
  else None.

End Log.

Module Client.

(** [Config], without the [Metadata] field, which none of the functions
    below reads or writes. *)
Record Config := mkConfig {
  DefaultZone : string;
  RenewalIntervalInSecs : Z;
  RegistryFetchIntervalSeconds : Z;
  DurationInSecs : Z;
  InstanceID : string;
  App : string;
  Version : string;
  HostName : string;
  IP : string;
  Port : Z;
  LogLevel : Z;
}.

Section Defaults.
(** [strings.ToLower] and the address [GetLocalIP] finds. *)
Context (strings_ToLower : string -> string) (GetLocalIP : string).

(** [DefaultConfig] assigns field by field; each step is one [if] of the
    source. The configuration is the one behind the pointer, which is not
    nil (a nil one panics at the first field). *)
Definition DefaultConfig (config : Config) : Config :=
  let zone := if String.eqb (DefaultZone config) ""
              then "http://localhost:8761/eureka/" else DefaultZone config in
  let zone := if negb (Strings.HasSuffix zone "/") then zone +:+ "/" else zone in
  let renewal := if RenewalIntervalInSecs config =? 0
                 then 30 else RenewalIntervalInSecs config in
  let fetch := if RegistryFetchIntervalSeconds config =? 0
               then 15 else RegistryFetchIntervalSeconds config in
  let duration := if DurationInSecs config =? 0 then 90 else DurationInSecs config in
  let app := if String.eqb (App config) "" then "unknown"
             else strings_ToLower (App config) in
  let ip := if String.eqb (IP config) "" then GetLocalIP else IP config in
  let host := if String.eqb (HostName config) "" then ip else HostName config in
  let port := if Port config =? 0 then 80 else Port config in
  let id := if String.eqb (InstanceID config) ""
            then app +:+ ":" +:+ ip +:+ ":" +:+ Strings.itoa port
            else InstanceID config in
  mkConfig zone renewal fetch duration id app (Version config) host ip port
    (LogLevel config).

(** The configuration as the reactor holds it. *)
Definition reactor_config (config : Config) : Reactor.Config :=
  Reactor.mkConfig (DefaultZone config) (LogLevel config).

(** [NewInstance], on the fields of [Instance] the reactor reads, with the
    reactor [instance.Beater] points to. *)
Definition NewInstance (config : Config) : option (Reactor.Instance * Reactor.BeatReactor) :=
  match Reactor.NewBeatReactor (Some (reactor_config config))
          (RenewalIntervalInSecs config) with
  | Some beater => Some (Reactor.mkInstance (App config) (InstanceID config) "UP", beater)
  | None => None
  end.

End Defaults.

Section Applications.
(** [Application], with [Instance] as a parameter: the function below only
    moves instances around. *)
Context {I : Type}.

Record Application := mkApplication {
  Name : string;
  Instances : list I;
}.

(** [GetApplicationInstance]; [applications] is [c.Applications], nil being
    [None]. *)
Definition GetApplicationInstance (applications : option (list Application))
    (name : string) : list I :=
  match applications with
  | None => []
  | Some apps =>
      fold_left (fun instances app =>
                   if String.eqb (Name app) name then instances ++ Instances app
                   else instances)
        apps []
  end.

End Applications.

End Client.

(** ** Stand-ins for the examples

    URLs kept as plain strings, and a registry that answers every request
    with one status. *)

Module Stub.

Definition parse (base : string) : string * option Requests.error := (base, None).

Definition join (a b : string) : string * option Requests.error := (a +:+ b, None).

Definition path (u : string) : string := u.

Definition with_path (joined u : string) : string := joined.

Definition escape (s : string) : string := s.

Definition answers (code : Z) (method u : string) : Requests.Result :=
  Requests.mkResult (Some (Requests.mkResponse code)) None.

(** A registry that cannot be reached: no response, a transport error. *)
Definition refuses (method u : string) : Requests.Result :=
  Requests.mkResult None (Some (Requests.foreign "connection refused")).

Definition keep_case (s : string) : string := s.

Definition filled : Client.Config :=
  Client.mkConfig "http://eureka:8761/eureka/" 10 15 90 "order:10.0.0.1:8886"
    "ORDER" "1.0" "order-host" "10.0.0.1" 8886 0.

End Stub.

(** * Properties of the concurrent map *)

Section MapFacts.
Context {V : Type} `{!Interface V}.
Implicit Types (m : list (gmap string V)) (shard : gmap string V).
Implicit Types (k key : string) (v : V).

Import CMap.

Lemma shard_index_lt k : (shard_index k < ShardCount)%nat.
Proof.
  unfold shard_index, ShardCount.
  pose proof (Z.mod_pos_bound (fnv.Sum32 k) (Z.of_nat 32)). lia.
Qed.

Lemma allocated_new : allocated (NewConcurrentMap (V := V)).
Proof. unfold allocated, NewConcurrentMap. by rewrite length_replicate. Qed.

Lemma allocated_shard m k : allocated m → is_Some (m !! shard_index k).
Proof.
  intros Hm. apply lookup_lt_is_Some. rewrite Hm. apply shard_index_lt.
Qed.

Lemma allocated_store m i shard : allocated m → allocated (<[i := shard]> m).
Proof. unfold allocated. by rewrite length_insert. Qed.

Lemma GetShard_eq m k shard :
  m !! shard_index k = Some shard → GetShard k m = Some (shard, m).
Proof. intros H. unfold GetShard, shard_at. by rewrite H. Qed.

Lemma Get_eq m k shard :
  m !! shard_index k = Some shard → Get k m = Some (found (shard !! k), m).
Proof. intros H. unfold Get, Go.bind. by rewrite (GetShard_eq _ _ _ H). Qed.

Lemma Has_eq m k shard :
  m !! shard_index k = Some shard → Has k m = Some (bool_decide (is_Some (shard !! k)), m).
Proof.
  intros H. unfold Has, Go.bind. rewrite (GetShard_eq _ _ _ H). unfold index.
  by destruct (shard !! k).
Qed.

Lemma Set_eq m k v shard :
  m !! shard_index k = Some shard →
  Set_ k v m = Some (tt, <[shard_index k := <[k := v]> shard]> m).
Proof. intros H. unfold Set_, Go.bind. by rewrite (GetShard_eq _ _ _ H). Qed.

Lemma Remove_eq m k shard :
  m !! shard_index k = Some shard →
  Remove k m = Some (tt, <[shard_index k := delete k shard]> m).
Proof. intros H. unfold Remove, Go.bind. by rewrite (GetShard_eq _ _ _ H). Qed.

Lemma Pop_eq m k shard :
  m !! shard_index k = Some shard →
  Pop k m = Some (found (shard !! k), <[shard_index k := delete k shard]> m).
Proof. intros H. unfold Pop, Go.bind. by rewrite (GetShard_eq _ _ _ H). Qed.

Lemma SetIfAbsent_eq m k v shard :
  m !! shard_index k = Some shard →
  SetIfAbsent k v m =
    match shard !! k with
    | Some _ => Some (false, m)
    | None => Some (true, <[shard_index k := <[k := v]> shard]> m)
    end.
Proof.
  intros H. unfold SetIfAbsent, Go.bind. rewrite (GetShard_eq _ _ _ H).
  unfold index. by destruct (shard !! k).
Qed.

Lemma find_eq m k shard : m !! shard_index k = Some shard → find k m = shard !! k.
Proof. intros H. unfold find. by rewrite H. Qed.

(** Writing the shard of [k] back: [k] reads from the new shard, and a key
    the new shard agrees on with the old one reads as before. *)
Lemma find_store_eq m k shard :
  allocated m → find k (<[shard_index k := shard]> m) = shard !! k.
Proof.
  intros Hm. apply find_eq, list_lookup_insert_eq.
  rewrite Hm. apply shard_index_lt.
Qed.

Lemma find_store_frame m k k' shard shard' :
  m !! shard_index k = Some shard →
  shard' !! k' = shard !! k' →
  find k' (<[shard_index k := shard']> m) = find k' m.
Proof.
  intros H Hk'. unfold find.
  destruct (decide (shard_index k = shard_index k')) as [E | E].
  - rewrite <- E, H, list_lookup_insert_eq; [done |].
    by apply lookup_lt_Some in H.
  - by rewrite list_lookup_insert_ne.
Qed.

Lemma Get_find m k : allocated m → Get k m = Some (found (find k m), m).
Proof.
  intros Hm. destruct (allocated_shard m k Hm) as [shard H].
  by rewrite (Get_eq _ _ _ H), (find_eq _ _ _ H).
Qed.

Lemma Count_total m : allocated m → ∃ n, Count m = Some (n, m).
Proof.
  intros Hm. unfold Count.
  assert (Hin : ∀ i, i ∈ seq 0 ShardCount → (i < List.length m)%nat).
  { intros i Hi. apply elem_of_seq in Hi. rewrite Hm. lia. }
  assert (H0 : ∃ n, Go.ret (S := list (gmap string V)) 0 m = Some (n, m)) by (by exists 0).
  revert Hin H0. generalize (Go.ret (S := list (gmap string V)) 0).
  generalize (seq 0 ShardCount) as l.
  induction l as [| i l IH]; intros acc Hin [n Hn]; simpl.
  - by exists n.
  - apply IH.
    + intros j Hj. apply Hin. by right.
    + destruct (lookup_lt_is_Some_2 m i) as [shard Hs]; [apply Hin; by left |].
      exists (n + Z.of_nat (size shard)).
      unfold Go.bind, shard_at. by rewrite Hn, Hs.
Qed.

Lemma copy_into_union shard (tmp : gmap string V) : copy_into shard tmp = shard ∪ tmp.
Proof.
  unfold copy_into.
  apply (map_fold_weak_ind (λ r s, r = s ∪ tmp)).
  - by rewrite (left_id_L ∅ (∪)).
  - intros i x s r _ ->. by rewrite insert_union_l.
Qed.

(** *** The merged snapshot *)

Lemma sharded_new : sharded (NewConcurrentMap (V := V)).
Proof.
  intros i shard k Hi [v Hv]. unfold NewConcurrentMap in Hi.
  apply lookup_replicate in Hi as [-> _]. by rewrite lookup_empty in Hv.
Qed.

Lemma sharded_insert m k v shard :
  sharded m → m !! shard_index k = Some shard →
  sharded (<[shard_index k := <[k := v]> shard]> m).
Proof.
  intros Hm H i shard' k' Hi Hk'.
  destruct (decide (shard_index k = i)) as [<- | Hne].
  - rewrite list_lookup_insert_eq in Hi by by apply lookup_lt_Some in H.
    injection Hi as <-. destruct (decide (k = k')) as [<- | Hkk]; [done |].
    rewrite lookup_insert_ne in Hk' by done. by apply (Hm _ shard).
  - rewrite list_lookup_insert_ne in Hi by done. by apply (Hm _ shard').
Qed.

Lemma sharded_delete m k shard :
  sharded m → m !! shard_index k = Some shard →
  sharded (<[shard_index k := delete k shard]> m).
Proof.
  intros Hm H i shard' k' Hi Hk'.
  destruct (decide (shard_index k = i)) as [<- | Hne].
  - rewrite list_lookup_insert_eq in Hi by by apply lookup_lt_Some in H.
    injection Hi as <-. destruct (decide (k = k')) as [<- | Hkk]; [done |].
    rewrite lookup_delete_ne in Hk' by done. by apply (Hm _ shard).
  - rewrite list_lookup_insert_ne in Hi by done. by apply (Hm _ shard').
Qed.

Lemma merge_absent (l : list (gmap string V)) (tmp : gmap string V) k :
  (∀ shard, shard ∈ l → shard !! k = None) →
  fold_left (λ tmp shard, copy_into shard tmp) l tmp !! k = tmp !! k.
Proof.
  revert tmp. induction l as [| shard l IH]; intros tmp Hl; [done |].
  simpl. rewrite IH by (intros ? ?; apply Hl; by right).
  rewrite copy_into_union. apply lookup_union_r, Hl. by left.
Qed.

(** On a map whose entries sit in their shards, [Items] holds for every key
    what [Get] reports for it. *)
Lemma Items_find m k :
  allocated m → sharded m →
  ∃ items, Items m = Some (items, m) ∧ items !! k = find k m.
Proof.
  intros Hm Hs. eexists. split; [reflexivity |].
  destruct (allocated_shard m k Hm) as [shard H].
  rewrite (find_eq _ _ _ H).
  rewrite <- (take_drop_middle m _ shard H) at 1.
  rewrite fold_left_app. simpl. rewrite merge_absent, copy_into_union.
  - destruct (shard !! k) as [v |] eqn:Hk.
    + by apply lookup_union_Some_l.
    + rewrite lookup_union_r by done. rewrite merge_absent; [done |].
      intros shard' Hin. apply list_elem_of_lookup in Hin as [j Hj].
      pose proof (lookup_lt_Some _ _ _ Hj) as Hlt. rewrite length_take in Hlt.
      rewrite lookup_take_lt in Hj by lia.
      destruct (shard' !! k) eqn:E; [| done].
      assert (shard_index k = j) by (apply (Hs j shard'); eauto). lia.
  - intros shard' Hin. apply list_elem_of_lookup in Hin as [j Hj].
    rewrite lookup_drop in Hj.
    destruct (shard' !! k) eqn:E; [| done].
    assert (shard_index k = (S (shard_index k) + j)%nat)
      by (apply (Hs _ shard'); eauto). lia.
Qed.

End MapFacts.

Section MapClaims.
Context {V : Type} `{!Interface V}.
Implicit Types (m : list (gmap string V)) (shard : gmap string V).
Implicit Types (k key : string) (v : V).

Import CMap.

Lemma eval_Get m k : allocated m → Go.eval (Get k) m = Some (found (find k m)).
Proof. intros Hm. unfold Go.eval. by rewrite Get_find. Qed.

Lemma eval_Has m k :
  allocated m → Go.eval (Has k) m = Some (bool_decide (is_Some (find k m))).
Proof.
  intros Hm. destruct (allocated_shard m k Hm) as [shard H].
  unfold Go.eval. by rewrite (Has_eq _ _ _ H), (find_eq _ _ _ H).
Qed.

Lemma eval_Has_false m k :
  allocated m → Go.eval (Has k) m = Some false ↔ find k m = None.
Proof.
  intros Hm. rewrite eval_Has by done. destruct (find k m); simpl; split; try done.
Qed.

(** Once [k] has a value, every further [SetIfAbsent] on it reports
    [false] and leaves the map as it is. *)
Lemma SetIfAbsent_present m k x vs :
  allocated m → find k m = Some x →
  Go.map_each (SetIfAbsent k) vs m = Some (replicate (List.length vs) false, m).
Proof.
  intros Hm Hk. destruct (allocated_shard m k Hm) as [shard H].
  rewrite (find_eq _ _ _ H) in Hk.
  induction vs as [| v vs IH]; [done |].
  simpl. unfold Go.bind at 1. rewrite (SetIfAbsent_eq _ _ _ _ H), Hk.
  unfold Go.bind. by rewrite IH.
Qed.

(** C5. Map round-trip: on every allocated map, [Set(k,v)] followed by
    [Get(k)] returns [(v, true)], and [Remove(k)] followed by [Get(k)]
    returns [(nil, false)]. *)
Theorem set_get_remove_get_roundtrip m k v :
  allocated m →
  Go.eval (Set_ k v ;; Get k) m = Some (v, true) ∧
  Go.eval (Remove k ;; Get k) m = Some (nil, false).
Proof.
  intros Hm. destruct (allocated_shard m k Hm) as [shard H].
  unfold Go.eval, Go.bind. split.
  - rewrite (Set_eq _ _ _ _ H), Get_find by by apply allocated_store.
    by rewrite find_store_eq, lookup_insert_eq.
  - rewrite (Remove_eq _ _ _ H), Get_find by by apply allocated_store.
    by rewrite find_store_eq, lookup_delete_eq.
Qed.

(** C6. [SetIfAbsent(k,v)] returns [true] exactly when [k] had no value,
    and then [k] holds [v]; when [k] had a value it returns [false] and the
    map (so the value of [k]) is unchanged. In a sequence of [SetIfAbsent]
    calls on a key absent at the start, the first call alone reports
    [true]. *)
Theorem SetIfAbsent_first_wins m k v :
  allocated m →
  ∃ inserted m',
    SetIfAbsent k v m = Some (inserted, m') ∧
    (inserted = true ↔ Go.eval (Has k) m = Some false) ∧
    (inserted = true → Go.eval (Get k) m' = Some (v, true)) ∧
    (inserted = false → m' = m) ∧
    (∀ vs, Go.eval (Has k) m = Some false →
       Go.eval (Go.map_each (SetIfAbsent k) (v :: vs)) m
       = Some (true :: replicate (List.length vs) false)).
Proof.
  intros Hm. destruct (allocated_shard m k Hm) as [shard H].
  pose proof (SetIfAbsent_eq m k v shard H) as Hs.
  assert (Hhas : Go.eval (Has k) m = Some false ↔ shard !! k = None).
  { by rewrite eval_Has_false, (find_eq m k shard H). }
  destruct (shard !! k) as [x |] eqn:Hk.
  - exists false, m. split; [done |]. split; [rewrite Hhas; by split |].
    split; [done |]. split; [done |].
    intros vs Hc. by apply Hhas in Hc.
  - set (m' := <[shard_index k := <[k := v]> shard]> m) in *.
    assert (Hm' : allocated m') by by apply allocated_store.
    assert (Hk' : find k m' = Some v).
    { unfold m'. by rewrite find_store_eq, lookup_insert_eq. }
    exists true, m'. split; [done |]. split; [by rewrite Hhas |].
    split; [| split; [done |]].
    + intros _. by rewrite eval_Get, Hk'.
    + intros vs _. unfold Go.eval. simpl. unfold Go.bind at 1. rewrite Hs.
      unfold Go.bind. by rewrite (SetIfAbsent_present m' k v vs).
Qed.

(** C7. [Pop(k)] never panics on an allocated map. When [k] holds [v] it
    returns [(v, true)] and [k] is absent afterwards; when [k] is absent it
    returns [(nil, false)] and the map is unchanged. *)
Theorem Pop_read_then_delete m k :
  allocated m →
  ∃ r m',
    Pop k m = Some (r, m') ∧
    (∀ v, Go.eval (Get k) m = Some (v, true) →
       r = (v, true) ∧ Go.eval (Has k) m' = Some false) ∧
    (Go.eval (Has k) m = Some false → r = (nil, false) ∧ m' = m).
Proof.
  intros Hm. destruct (allocated_shard m k Hm) as [shard H].
  pose proof (find_eq m k shard H) as Hf.
  eexists _, _. split; [by apply Pop_eq |].
  split.
  - intros v Hv. rewrite eval_Get, Hf in Hv by done. split.
    + destruct (shard !! k); simpl in *; congruence.
    + apply eval_Has_false; [by apply allocated_store |].
      by rewrite find_store_eq, lookup_delete_eq.
  - intros Hk. apply eval_Has_false in Hk; [| done].
    rewrite Hf in Hk. rewrite Hk. split; [done |].
    rewrite delete_id by done. by apply list_insert_id.
Qed.

(** Running [c] first does not change what [Get k'] reports, when [c]
    leaves the association of [k'] alone. *)
Lemma Get_after {A} (c : Go.M (list (gmap string V)) A) m m' a k' :
  allocated m → c m = Some (a, m') → allocated m' → find k' m' = find k' m →
  Go.eval (c ;; Get k') m = Go.eval (Get k') m.
Proof.
  intros Hm Hc Hm' Hk'. rewrite (eval_Get m) by done.
  unfold Go.eval, Go.bind. rewrite Hc, Get_find by done. by rewrite Hk'.
Qed.

(** C9. [MarshalJSON] encodes the very map [Items] returns: both merge the
    shards, in order, into a fresh map, and [MarshalJSON] hands the result
    to [json.Marshal]; neither changes the map. *)
Theorem MarshalJSON_encodes_Items {B E} (json_Marshal : gmap string V → B * E) m :
  ∃ items,
    Items m = Some (items, m) ∧
    MarshalJSON json_Marshal m = Some (json_Marshal items, m).
Proof. eexists. split; reflexivity. Qed.

(** C10. Frame: for [k ≠ k'], [Set], [SetIfAbsent], [Remove] and [Pop] on
    [k] leave what [Get k'] reports (presence and value) unchanged; [Get],
    [Has], [Count], [Keys] and [Items] leave the whole map unchanged. *)
Theorem single_key_frame m k k' v :
  allocated m → k ≠ k' →
  Go.eval (Set_ k v ;; Get k') m = Go.eval (Get k') m ∧
  Go.eval (SetIfAbsent k v ;; Get k') m = Go.eval (Get k') m ∧
  Go.eval (Remove k ;; Get k') m = Go.eval (Get k') m ∧
  Go.eval (Pop k ;; Get k') m = Go.eval (Get k') m ∧
  Go.exec (Get k) m = Some m ∧
  Go.exec (Has k) m = Some m ∧
  Go.exec Count m = Some m ∧
  Go.exec Keys m = Some m ∧
  Go.exec Items m = Some m.
Proof.
  intros Hm Hne. destruct (allocated_shard m k Hm) as [shard H].
  assert (Hins : find k' (<[shard_index k := <[k := v]> shard]> m) = find k' m).
  { apply (find_store_frame m k k' shard); [done |]. by rewrite lookup_insert_ne. }
  assert (Hdel : find k' (<[shard_index k := delete k shard]> m) = find k' m).
  { apply (find_store_frame m k k' shard); [done |]. by rewrite lookup_delete_ne. }
  repeat split.
  - eapply Get_after; [done | by apply Set_eq | by apply allocated_store | done].
  - pose proof (SetIfAbsent_eq m k v shard H) as Hs.
    destruct (shard !! k).
    + eapply Get_after; [done | exact Hs | done | done].
    + eapply Get_after; [done | exact Hs | by apply allocated_store | done].
  - eapply Get_after; [done | by apply Remove_eq | by apply allocated_store | done].
  - eapply Get_after; [done | by apply Pop_eq | by apply allocated_store | done].
  - unfold Go.exec. by rewrite (Get_eq _ _ _ H).
  - unfold Go.exec. by rewrite (Has_eq _ _ _ H).
  - destruct (Count_total m Hm) as [n Hn]. unfold Go.exec. by rewrite Hn.
  - destruct (Count_total m Hm) as [n Hn]. unfold Go.exec, Keys, Go.bind.
    by rewrite Hn.
Qed.

End MapClaims.

Import CMap.

Lemma set_get_remove_get_roundtrip_witness :
  Go.eval (Set_ "svc:1.2.3.4:8080" (Reactor.VInt64 7) ;; Get "svc:1.2.3.4:8080")
    NewConcurrentMap = Some (Reactor.VInt64 7, true) ∧
  Go.eval (Remove "svc:1.2.3.4:8080" ;; Get "svc:1.2.3.4:8080")
    (NewConcurrentMap (V := Reactor.Value)) = Some (nil, false).
Proof.
  apply (set_get_remove_get_roundtrip (V := Reactor.Value)). reflexivity.
Defined.

Lemma SetIfAbsent_first_wins_witness :
  ∃ inserted m',
    SetIfAbsent "a" (Reactor.VInt64 1) NewConcurrentMap = Some (inserted, m') ∧
    (inserted = true ↔ Go.eval (Has "a") (NewConcurrentMap (V := Reactor.Value)) = Some false) ∧
    (inserted = true → Go.eval (Get "a") m' = Some (Reactor.VInt64 1, true)) ∧
    (inserted = false → m' = NewConcurrentMap) ∧
    (∀ vs, Go.eval (Has "a") (NewConcurrentMap (V := Reactor.Value)) = Some false →
       Go.eval (Go.map_each (SetIfAbsent "a") (Reactor.VInt64 1 :: vs)) NewConcurrentMap
       = Some (true :: replicate (List.length vs) false)).
Proof.
  apply (SetIfAbsent_first_wins (V := Reactor.Value)). reflexivity.
Defined.

Lemma Pop_read_then_delete_witness :
  ∃ r m',
    Pop "a" (NewConcurrentMap (V := Reactor.Value)) = Some (r, m') ∧
    (∀ v, Go.eval (Get "a") (NewConcurrentMap (V := Reactor.Value)) = Some (v, true) →
       r = (v, true) ∧ Go.eval (Has "a") m' = Some false) ∧
    (Go.eval (Has "a") (NewConcurrentMap (V := Reactor.Value)) = Some false →
       r = (nil, false) ∧ m' = NewConcurrentMap).
Proof.
  apply (Pop_read_then_delete (V := Reactor.Value)). reflexivity.
Defined.


Lemma single_key_frame_witness :
  Go.eval (Set_ "a" (Reactor.VInt64 3) ;; Get "b") Scenario.two_keys = Go.eval (Get "b") Scenario.two_keys ∧
  Go.eval (SetIfAbsent "a" (Reactor.VInt64 3) ;; Get "b") Scenario.two_keys = Go.eval (Get "b") Scenario.two_keys ∧
  Go.eval (Remove "a" ;; Get "b") Scenario.two_keys = Go.eval (Get "b") Scenario.two_keys ∧
  Go.eval (Pop "a" ;; Get "b") Scenario.two_keys = Go.eval (Get "b") Scenario.two_keys ∧
  Go.exec (Get "a") Scenario.two_keys = Some Scenario.two_keys ∧
  Go.exec (Has "a") Scenario.two_keys = Some Scenario.two_keys ∧
  Go.exec Count Scenario.two_keys = Some Scenario.two_keys ∧
  Go.exec Keys Scenario.two_keys = Some Scenario.two_keys ∧
  Go.exec Items Scenario.two_keys = Some Scenario.two_keys.
Proof.
  apply (single_key_frame Scenario.two_keys "a" "b" (Reactor.VInt64 3)).
  - vm_compute. reflexivity.
  - discriminate.
Defined.

(** * Properties of the beat reactor *)

Section ReactorFacts.
Import Reactor.
Implicit Types (s : State) (k : string) (p : ptr) (e : Env) (i : Instance).

Lemma bind_eq {S A B} (c : Go.M S A) (f : A → Go.M S B) st a st' :
  c st = Some (a, st') → Go.bind c f st = f a st'.
Proof. intros H. unfold Go.bind. by rewrite H. Qed.

Lemma with_trace_app s t1 t2 :
  with_trace (with_trace s t1) t2 = with_trace s (t1 ++ t2).
Proof. unfold with_trace. simpl. by rewrite <- (assoc_L (++)). Qed.

Lemma with_trace_nil s : with_trace s [] = s.
Proof. destruct s. unfold with_trace. simpl. by rewrite (right_id_L [] (++)). Qed.

Lemma Acquire_ok e s :
  acquire_err e = false → slot_free s →
  Acquire e s = Some (AcqOk, with_trace (take_slot s) [EvAcquire]).
Proof.
  intros He [_ Hfree]. unfold Acquire. rewrite He.
  unfold Go.bind at 1, Go.get.
  destruct (Z.leb_spec 1 (size (beatThreadSemaphore (reactor s))
                          - cur (beatThreadSemaphore (reactor s)))); [done | lia].
Qed.

Lemma Release_ok s :
  0 ≤ cur (beatThreadSemaphore (reactor s)) - 1 →
  Release s = Some (tt, with_trace (free_slot s) [EvRelease]).
Proof.
  intros Hcur. unfold Release. unfold Go.bind at 1, Go.get.
  destruct (Z.ltb_spec (cur (beatThreadSemaphore (reactor s)) - 1) 0); [lia | done].
Qed.

Lemma load_eq p s i : heap s !! p = Some i → load p s = Some (i, s).
Proof. intros H. unfold load. by rewrite H. Qed.

Lemma load_config_eq s cfg :
  config (reactor s) = Some cfg → load_config s = Some (cfg, s).
Proof. intros H. unfold load_config. by rewrite H. Qed.

Lemma Heartbeat_eq e zone app id s :
  Heartbeat e zone app id s = Some (beat e, with_trace s [EvHeartbeat zone app id]).
Proof. reflexivity. Qed.

Lemma sleep_Period_eq s :
  sleep_Period s = Some (tt, with_trace s [EvSleep (Period (reactor s))]).
Proof. reflexivity. Qed.

Lemma on_beatMap_eq {A} (c : Go.M (list (gmap string Value)) A) s a bm :
  c (beatMap (reactor s)) = Some (a, bm) → on_beatMap c s = Some (a, set_beatMap bm s).
Proof. intros H. unfold on_beatMap, Go.zoom. by rewrite H. Qed.

Lemma on_beatRecordMap_eq {A} (c : Go.M (list (gmap string Value)) A) s a bm :
  c (beatRecordMap (reactor s)) = Some (a, bm) →
  on_beatRecordMap c s = Some (a, set_beatRecordMap bm s).
Proof. intros H. unfold on_beatRecordMap, Go.zoom. by rewrite H. Qed.

(** Taking a slot and giving it back leaves the semaphore as it was. *)
Lemma free_take_slot s : free_slot (take_slot s) = s.
Proof.
  destruct s as [h [c bm secs cnt [sz cr] rmap per] gs tr].
  unfold free_slot, take_slot, set_semaphore. simpl.
  repeat f_equal. lia.
Qed.

Lemma free_slot_with_trace s t : free_slot (with_trace s t) = with_trace (free_slot s) t.
Proof. reflexivity. Qed.

Lemma free_slot_set_beatRecordMap s r :
  free_slot (set_beatRecordMap r s) = set_beatRecordMap r (free_slot s).
Proof. reflexivity. Qed.

Lemma set_beatRecordMap_with_trace s r t :
  set_beatRecordMap r (with_trace s t) = with_trace (set_beatRecordMap r s) t.
Proof. reflexivity. Qed.

(** The pass goes through [Acquire], the status check and the call. *)
Lemma loop_body_to_beat s k p e i cfg :
  heap s !! p = Some i → Status i = "UP" → config (reactor s) = Some cfg →
  slot_free s → acquire_err e = false →
  loop_body k p e s =
    match beat e with
    | Some err =>
        if errors_Is err ErrNotFound then
          (on_beatMap (CMap.Remove k) ;; Go.ret Return)
        else (Release ;; sleep_Period ;; Go.ret Continue)
    | None =>
        (on_beatRecordMap (CMap.Set_ k (VInt64 (now e ÷ 1000000))) ;;
         Release ;; sleep_Period ;; Go.ret Continue)
    end (with_trace (take_slot s)
           [EvAcquire; EvHeartbeat (DefaultZone cfg) (App i) (InstanceID i)]).
Proof.
  intros Hp Hup Hcfg Hfree Hacq. unfold loop_body.
  rewrite (bind_eq _ _ _ _ _ (Acquire_ok e s Hacq Hfree)). cbv beta iota.
  rewrite (bind_eq _ _ _ i _ (load_eq p (with_trace (take_slot s) [EvAcquire]) i Hp)). rewrite Hup.
  change (negb ("UP" =? "UP")%string) with false. cbv beta iota.
  rewrite (bind_eq _ _ _ cfg _
             (load_config_eq (with_trace (take_slot s) [EvAcquire]) cfg Hcfg)).
  rewrite (bind_eq _ _ _ _ _ (Heartbeat_eq _ _ _ _ _)).
  by rewrite with_trace_app.
Qed.

Lemma held_after_take s t :
  slot_free s →
  0 ≤ cur (beatThreadSemaphore (reactor (with_trace (take_slot s) t))) - 1.
Proof.
  intros [Hcur _].
  change (0 ≤ cur (beatThreadSemaphore (reactor s)) + 1 - 1). lia.
Qed.

Lemma release_sleep s :
  0 ≤ cur (beatThreadSemaphore (reactor s)) - 1 →
  (Release ;; sleep_Period ;; Go.ret Continue) s
  = Some (Continue, with_trace (free_slot s) [EvRelease; EvSleep (Period (reactor s))]).
Proof.
  intros Hcur. rewrite (bind_eq _ _ _ _ _ (Release_ok s Hcur)).
  rewrite (bind_eq _ _ _ _ _ (sleep_Period_eq _)).
  unfold Go.ret. by rewrite with_trace_app.
Qed.

(** A heartbeat that fails with anything but not-found: the slot is taken
    and given back, and nothing but the trace changes. *)
Lemma loop_body_transient s k p e i cfg :
  heap s !! p = Some i → Status i = "UP" → config (reactor s) = Some cfg →
  slot_free s → transient e = true →
  loop_body k p e s = Some (Continue, with_trace s (beat_pass s cfg i)).
Proof.
  intros Hp Hup Hcfg Hfree He. unfold transient in He.
  apply andb_prop in He as [Hacq He]. apply negb_true_iff in Hacq.
  rewrite (loop_body_to_beat s k p e i cfg) by done.
  destruct (beat e) as [err |]; [| done]. apply negb_true_iff in He. rewrite He.
  rewrite release_sleep by by apply held_after_take.
  by rewrite free_slot_with_trace, free_take_slot, with_trace_app.
Qed.

(** A heartbeat that succeeds: the time is recorded under [k], the slot is
    taken and given back. *)
Lemma loop_body_success s k p e i cfg :
  heap s !! p = Some i → Status i = "UP" → config (reactor s) = Some cfg →
  slot_free s → acquire_err e = false → beat e = None →
  CMap.allocated (beatRecordMap (reactor s)) →
  ∃ records,
    CMap.Set_ k (VInt64 (now e ÷ 1000000)) (beatRecordMap (reactor s)) = Some (tt, records) ∧
    loop_body k p e s
    = Some (Continue, with_trace (set_beatRecordMap records s) (beat_pass s cfg i)).
Proof.
  intros Hp Hup Hcfg Hfree Hacq Hbeat Hrec.
  destruct (allocated_shard _ k Hrec) as [shard Hshard].
  eexists. split; [by apply Set_eq |].
  rewrite (loop_body_to_beat s k p e i cfg), Hbeat by done.
  erewrite bind_eq;
    [| apply on_beatRecordMap_eq; exact (Set_eq _ k _ shard Hshard)].
  rewrite release_sleep
    by (destruct Hfree; change (0 ≤ cur (beatThreadSemaphore (reactor s)) + 1 - 1); lia).
  rewrite set_beatRecordMap_with_trace, free_slot_with_trace,
    free_slot_set_beatRecordMap, free_take_slot, with_trace_app.
  reflexivity.
Qed.

(** The record is no longer [UP]: the slot is given back and the task
    returns. *)
Lemma loop_body_stopped s k p e i :
  heap s !! p = Some i → Status i ≠ "UP" → slot_free s → acquire_err e = false →
  loop_body k p e s = Some (Return, with_trace s [EvAcquire; EvRelease]).
Proof.
  intros Hp Hup Hfree Hacq. unfold loop_body.
  rewrite (bind_eq _ _ _ _ _ (Acquire_ok e s Hacq Hfree)). cbv beta iota.
  rewrite (bind_eq _ _ _ i _ (load_eq p (with_trace (take_slot s) [EvAcquire]) i Hp)).
  apply String.eqb_neq in Hup. rewrite Hup. cbv beta iota.
  change (negb false) with true. cbv iota.
  erewrite bind_eq; [| by apply Release_ok, held_after_take].
  unfold Go.ret. by rewrite free_slot_with_trace, free_take_slot, with_trace_app.
Qed.

(** The registry answers not-found: the key leaves the live map and the
    task returns with its slot still counted as in use. *)
Lemma loop_body_not_found s k p e i cfg err :
  heap s !! p = Some i → Status i = "UP" → config (reactor s) = Some cfg →
  slot_free s → acquire_err e = false →
  beat e = Some err → errors_Is err ErrNotFound = true →
  CMap.allocated (beatMap (reactor s)) →
  ∃ live,
    CMap.Remove k (beatMap (reactor s)) = Some (tt, live) ∧
    loop_body k p e s
    = Some (Return,
            with_trace (take_slot (set_beatMap live s))
              [EvAcquire; EvHeartbeat (DefaultZone cfg) (App i) (InstanceID i)]).
Proof.
  intros Hp Hup Hcfg Hfree Hacq Hbeat Herr Hlive.
  destruct (allocated_shard _ k Hlive) as [shard Hshard].
  eexists. split; [by apply Remove_eq |].
  rewrite (loop_body_to_beat s k p e i cfg), Hbeat, Herr by done.
  erewrite bind_eq; [| apply on_beatMap_eq; exact (Remove_eq _ k shard Hshard)].
  reflexivity.
Qed.

(** Passes that all fail transiently: the task is still looping after any
    number of them. *)
Lemma sendInstanceBeat_transient s k p i cfg es :
  heap s !! p = Some i → Status i = "UP" → config (reactor s) = Some cfg →
  slot_free s → forallb transient es = true →
  sendInstanceBeat k p es s
  = Some (Continue, with_trace s (mjoin (replicate (List.length es) (beat_pass s cfg i)))).
Proof.
  intros Hp Hup Hcfg Hfree. revert s Hp Hcfg Hfree.
  induction es as [| e es IH]; intros s Hp Hcfg Hfree Hes; simpl.
  - unfold Go.ret. by rewrite with_trace_nil.
  - apply andb_prop in Hes as [He Hes].
    rewrite (bind_eq _ _ _ _ _ (loop_body_transient s k p e i cfg Hp Hup Hcfg Hfree He)).
    cbv iota. rewrite IH by done. by rewrite with_trace_app.
Qed.

(** *** Registration and removal of a key that is present *)

Lemma set_beatMap_id s : set_beatMap (beatMap (reactor s)) s = s.
Proof. by destruct s as [h [] gs tr]. Qed.

Lemma on_beatMap_Get s k :
  CMap.allocated (beatMap (reactor s)) →
  on_beatMap (CMap.Get k) s = Some (CMap.found (CMap.find k (beatMap (reactor s))), s).
Proof.
  intros Hm. rewrite (on_beatMap_eq _ s _ _ (Get_find _ k Hm)).
  by rewrite set_beatMap_id.
Qed.

Lemma store_Status_eq s p i st :
  heap s !! p = Some i →
  store_Status p st s
  = Some (tt, set_heap (<[p := mkInstance (App i) (InstanceID i) st]> (heap s)) s).
Proof. intros Hp. unfold store_Status. by rewrite (bind_eq _ _ _ _ _ (load_eq p s i Hp)). Qed.

(** [RemoveBeatInfo] of a key whose record is stored: the record's status
    is overwritten with ["UP"] and the key leaves the live map. *)
Lemma RemoveBeatInfo_present s svc k p i :
  CMap.allocated (beatMap (reactor s)) →
  CMap.find k (beatMap (reactor s)) = Some (VInstance p) →
  heap s !! p = Some i →
  ∃ live,
    CMap.Remove k (beatMap (reactor s)) = Some (tt, live) ∧
    CMap.find k live = None ∧
    RemoveBeatInfo svc k s
    = Some (tt, set_beatMap live
                  (set_heap (<[p := mkInstance (App i) (InstanceID i) "UP"]> (heap s)) s)).
Proof.
  intros Hm Hk Hp. destruct (allocated_shard _ k Hm) as [shard Hshard].
  eexists. split; [by apply Remove_eq |]. split.
  { by rewrite find_store_eq, lookup_delete_eq. }
  unfold RemoveBeatInfo.
  rewrite (bind_eq _ _ _ _ _ (on_beatMap_Get s k Hm)), Hk. cbn [CMap.found snd fst].
  cbv iota. unfold as_Instance.
  assert (Hmark : (do beatInfo <- Go.ret p; store_Status beatInfo "UP") s
                  = Some (tt, set_heap (<[p := mkInstance (App i) (InstanceID i) "UP"]>
                                          (heap s)) s)).
  { rewrite (bind_eq _ _ _ p s (eq_refl : Go.ret p s = Some (p, s))).
    by apply store_Status_eq. }
  rewrite (bind_eq _ _ _ _ _ Hmark).
  apply on_beatMap_eq. exact (Remove_eq _ k shard Hshard).
Qed.

(** [AddBeatInfo] of a record whose instance id is already stored: the
    stored record gets status ["UP"], is stored again in place of the
    caller's, and the new task is bound to it. *)
Lemma AddBeatInfo_present s new inew p i :
  heap s !! new = Some inew →
  CMap.allocated (beatMap (reactor s)) →
  CMap.find (InstanceID inew) (beatMap (reactor s)) = Some (VInstance p) →
  heap s !! p = Some i →
  ∃ live,
    (CMap.Remove (InstanceID inew) ;; CMap.Set_ (InstanceID inew) (VInstance p))
      (beatMap (reactor s)) = Some (tt, live) ∧
    CMap.find (InstanceID inew) live = Some (VInstance p) ∧
    AddBeatInfo new s
    = Some (tt, spawn (InstanceID inew) p
                  (set_beatMap live
                     (set_heap (<[p := mkInstance (App i) (InstanceID i) "UP"]> (heap s)) s))).
Proof.
  intros Hnew Hm Hk Hp. set (k := InstanceID inew) in *.
  destruct (allocated_shard _ k Hm) as [shard Hshard].
  set (m1 := <[CMap.shard_index k := delete k shard]> (beatMap (reactor s))).
  assert (Hm1 : m1 !! CMap.shard_index k = Some (delete k shard)).
  { apply list_lookup_insert_eq. by apply lookup_lt_Some in Hshard. }
  assert (Hlive : (CMap.Remove k ;; CMap.Set_ k (VInstance p)) (beatMap (reactor s))
                  = Some (tt, <[CMap.shard_index k := <[k := VInstance p]> (delete k shard)]> m1)).
  { rewrite (bind_eq _ _ _ _ _ (Remove_eq _ k shard Hshard)). by apply Set_eq. }
  eexists. split; [exact Hlive |]. split.
  { rewrite find_store_eq by by apply allocated_store. apply lookup_insert_eq. }
  unfold AddBeatInfo.
  rewrite (bind_eq _ _ _ _ _ (load_eq new s inew Hnew)).
  fold k. rewrite (bind_eq _ _ _ _ _ (on_beatMap_Get s k Hm)), Hk.
  cbn [CMap.found snd fst]. cbv iota. unfold as_Instance.
  set (s1 := set_heap (<[p := mkInstance (App i) (InstanceID i) "UP"]> (heap s)) s).
  assert (Hswap : (do beatInfo <- Go.ret p;
                   store_Status beatInfo "UP" ;;
                   on_beatMap (CMap.Remove k) ;; Go.ret beatInfo) s
                  = Some (p, set_beatMap m1 s1)).
  { rewrite (bind_eq _ _ _ p s (eq_refl : Go.ret p s = Some (p, s))).
    rewrite (bind_eq _ _ _ _ _ (store_Status_eq s p i "UP" Hp)).
    erewrite bind_eq; [reflexivity |].
    apply on_beatMap_eq. exact (Remove_eq _ k shard Hshard). }
  rewrite (bind_eq _ _ _ _ _ Hswap).
  erewrite bind_eq; cycle 1.
  { apply on_beatMap_eq. exact (Set_eq m1 k _ _ Hm1). }
  reflexivity.
Qed.

End ReactorFacts.

Section ReactorClaims.
Import Reactor Scenario.

Lemma int64_small z : - 2 ^ 63 ≤ z < 2 ^ 63 → int64 z = z.
Proof. intros Hz. unfold int64. rewrite Z.mod_small; lia. Qed.

(** C1, at the not-found outcome. The pass acquires a slot, sends the
    heartbeat, removes the key from the live map and returns: the trace
    holds one acquire and no release, and the semaphore counts one slot
    more in use than before the pass. *)
Theorem not_found_pass_keeps_slot :
  ∃ s',
    loop_body key 1%positive (mkEnv false (Some ErrNotFound) 0) registered
    = Some (Return, s') ∧
    count_event EvAcquire (trace s') = 1%nat ∧
    count_event EvRelease (trace s') = 0%nat ∧
    cur (beatThreadSemaphore (reactor registered)) = 0 ∧
    cur (beatThreadSemaphore (reactor s')) = 1 ∧
    Go.eval (on_beatMap (CMap.Get key)) s' = Some (VNil, false).
Proof. eexists. repeat split; vm_compute; reflexivity. Qed.

(** C2, on a registered key. [RemoveBeatInfo] deletes the key from the live
    map and writes ["UP"] into the record, so the status the task polls
    still reads ["UP"]: the next pass of the task takes a slot and sends a
    heartbeat instead of returning. *)
Theorem RemoveBeatInfo_leaves_status_UP :
  ∃ s' s'',
    RemoveBeatInfo "ORDER-SERVICE" key registered = Some (tt, s') ∧
    Go.eval (on_beatMap (CMap.Get key)) registered = Some (VInstance 1, true) ∧
    Go.eval (on_beatMap (CMap.Get key)) s' = Some (VNil, false) ∧
    Status <$> heap s' !! 1%positive = Some "UP" ∧
    loop_body key 1%positive (mkEnv false None 1700000000000000000) s'
    = Some (Continue, s'') ∧
    trace s'' = beat_pass s' cfg first_record.
Proof. eexists _, _. repeat split; vm_compute; reflexivity. Qed.

(** C3, on a registered key. [AddBeatInfo] of a second record with the same
    instance id writes ["UP"] into the record already stored, stores that
    old record again under the key, and starts one task bound to the key
    and to the old record; the caller's record is not stored. *)
Theorem AddBeatInfo_keeps_stale_record :
  ∃ s',
    AddBeatInfo 2%positive registered = Some (tt, s') ∧
    Go.eval (on_beatMap (CMap.Get key)) registered = Some (VInstance 1, true) ∧
    Go.eval (on_beatMap (CMap.Get key)) s' = Some (VInstance 1, true) ∧
    Status <$> heap s' !! 1%positive = Some "UP" ∧
    goroutines s' = goroutines registered ++ [(key, 1%positive)].
Proof. eexists. repeat split; vm_compute; reflexivity. Qed.

(** C4. While every heartbeat fails with an error other than not-found, the
    task never returns: after any number of passes it is still looping,
    each pass having taken the slot, sent the heartbeat, released the slot
    and slept one period. The records, the live map, the beat-record map
    and the semaphore are as before the passes. *)
Theorem transient_errors_retry_without_mutation s k p i cfg es :
  heap s !! p = Some i → Status i = "UP" → config (reactor s) = Some cfg →
  slot_free s → forallb transient es = true →
  ∃ s',
    sendInstanceBeat k p es s = Some (Continue, s') ∧
    trace s' = trace s ++ mjoin (replicate (List.length es) (beat_pass s cfg i)) ∧
    heap s' = heap s ∧
    beatMap (reactor s') = beatMap (reactor s) ∧
    beatRecordMap (reactor s') = beatRecordMap (reactor s) ∧
    beatThreadSemaphore (reactor s') = beatThreadSemaphore (reactor s) ∧
    goroutines s' = goroutines s.
Proof.
  intros Hp Hup Hcfg Hfree Hes. eexists. split.
  - by apply (sendInstanceBeat_transient s k p i cfg es).
  - by repeat split.
Qed.

Lemma transient_errors_retry_without_mutation_witness :
  let es := replicate 5 (mkEnv false (Some ErrOther) 0) in
  ∃ s',
    sendInstanceBeat key 1%positive es registered = Some (Continue, s') ∧
    trace s' = trace registered
               ++ mjoin (replicate (List.length es) (beat_pass registered cfg first_record)) ∧
    heap s' = heap registered ∧
    beatMap (reactor s') = beatMap (reactor registered) ∧
    beatRecordMap (reactor s') = beatRecordMap (reactor registered) ∧
    beatThreadSemaphore (reactor s') = beatThreadSemaphore (reactor registered) ∧
    goroutines s' = goroutines registered.
Proof.
  apply (transient_errors_retry_without_mutation registered key 1%positive
           first_record cfg).
  - vm_compute. reflexivity.
  - reflexivity.
  - reflexivity.
  - vm_compute. split; [discriminate | reflexivity].
  - reflexivity.
Defined.

(** C8, as stated, fails for an interval whose nanosecond count does not
    fit [int64]: for 9223372037 seconds the period is negative. *)
Lemma NewBeatReactor_period_wraps :
  ∃ br,
    NewBeatReactor (Some cfg) 9223372037 = Some br ∧
    0 < 9223372037 < 2 ^ 63 ∧
    Period br = -9223372036709551616 ∧
    Period br ≠ 9223372037 * Second.
Proof. eexists. split; [reflexivity |]. vm_compute. repeat split; congruence. Qed.

Lemma int64_range z : - 2 ^ 63 ≤ int64 z < 2 ^ 63.
Proof.
  unfold int64. pose proof (Z.mod_pos_bound (z + 2 ^ 63) (2 ^ 64)). lia.
Qed.

(** C8, amended. For every interval, [NewBeatReactor] stores the given
    interval, or 5 when it is not positive; the semaphore has 20 slots,
    none in use; both maps have 32 shards. For an interval of at most
    9223372036 seconds the period is that many seconds; for a larger one
    the period is the [int64] wrap-around of the nanosecond count, which
    differs from it. *)
Theorem NewBeatReactor_defaults c secs :
  ∃ br,
    NewBeatReactor (Some c) secs = Some br ∧
    clientBeatIntervalInSecs br = (if secs <=? 0 then 5 else secs) ∧
    beatThreadCount br = 20 ∧
    beatThreadSemaphore br = mkWeighted 20 0 ∧
    CMap.ShardCount = 32%nat ∧
    beatMap br = replicate 32 ∅ ∧
    beatRecordMap br = replicate 32 ∅ ∧
    (secs ≤ 9223372036 → Period br = (if secs <=? 0 then 5 else secs) * Second) ∧
    (9223372036 < secs →
     Period br = int64 (secs * Second) ∧ Period br ≠ secs * Second).
Proof.
  eexists. split; [reflexivity |]. cbn [clientBeatIntervalInSecs beatThreadCount
    beatThreadSemaphore beatMap beatRecordMap Period].
  do 6 (split; [done |]). split.
  - intros Hsecs. apply int64_small. unfold Second.
    change (2 ^ 63) with 9223372036854775808.
    destruct (secs <=? 0) eqn:E; [lia |]. apply Z.leb_gt in E. lia.
  - intros Hsecs. destruct (Z.leb_spec secs 0) as [? | _]; [lia |].
    split; [done |].
    pose proof (int64_range (secs * Second)) as Hr. unfold Second in *.
    change (2 ^ 63) with 9223372036854775808 in Hr. lia.
Qed.

End ReactorClaims.

(** * Further properties of the concurrent map *)

Section MapMoreFacts.
Context {V : Type} `{!Interface V}.
Implicit Types (m l : list (gmap string V)) (shard : gmap string V).
Implicit Types (k key : string) (v : V).

Import CMap.

Lemma shardedb_sound m : shardedb m = true → sharded m.
Proof.
  unfold shardedb. intros Hb i shard k Hi [v Hv].
  apply Is_true_true, forallb_True in Hb.
  rewrite Forall_forall in Hb.
  assert (Hin : (i, shard) ∈ imap pair m).
  { apply list_elem_of_lookup. exists i. by rewrite list_lookup_imap, Hi. }
  apply Hb, forallb_True in Hin. rewrite Forall_forall in Hin.
  apply elem_of_map_to_list in Hv. apply Hin in Hv. simpl in Hv.
  by apply bool_decide_unpack in Hv.
Qed.

Lemma sharded_from_0 m : sharded m ↔ sharded_from 0 m.
Proof. done. Qed.

Lemma sharded_from_tail off shard l :
  sharded_from off (shard :: l) → sharded_from (S off) l.
Proof.
  intros Hs j shard' k Hj Hk.
  rewrite (Hs (S j) shard' k) by done. lia.
Qed.

Lemma elem_of_shard_keys l k :
  k ∈ shard_keys l ↔ ∃ j shard, l !! j = Some shard ∧ is_Some (shard !! k).
Proof.
  unfold shard_keys. rewrite list_elem_of_bind. split.
  - intros (shard & Hk & Hin). apply list_elem_of_lookup in Hin as [j Hj].
    exists j, shard. split; [done |].
    apply list_elem_of_fmap in Hk as ([k' v] & -> & Hkv).
    apply elem_of_map_to_list in Hkv. eauto.
  - intros (j & shard & Hj & [v Hv]). exists shard. split.
    + apply list_elem_of_fmap. exists (k, v). split; [done |].
      by apply elem_of_map_to_list.
    + apply list_elem_of_lookup. eauto.
Qed.

Lemma NoDup_shard_keys off l : sharded_from off l → NoDup (shard_keys l).
Proof.
  revert off. induction l as [| shard l IH]; intros off Hs; [constructor |].
  change (shard_keys (shard :: l)) with ((map_to_list shard).*1 ++ shard_keys l).
  apply NoDup_app. split; [apply NoDup_fst_map_to_list |]. split.
  - intros k Hk Hk'. apply elem_of_shard_keys in Hk' as (j & shard' & Hj & Hv).
    apply list_elem_of_fmap in Hk as ([k' v] & -> & Hkv).
    apply elem_of_map_to_list in Hkv. simpl in *.
    pose proof (Hs 0%nat shard k' eq_refl (ex_intro _ v Hkv)) as H0.
    pose proof (Hs (S j) shard' k' Hj Hv) as H1. lia.
  - apply (IH (S off)). by apply sharded_from_tail in Hs.
Qed.

Lemma length_shard_keys l :
  List.length (shard_keys l) = sum_list (size <$> l).
Proof.
  induction l as [| shard l IH]; [done |].
  change (shard_keys (shard :: l)) with ((map_to_list shard).*1 ++ shard_keys l).
  rewrite List.length_app, length_fmap, length_map_to_list, IH. done.
Qed.

Lemma shard_keys_entries l : shard_keys l = (shard_entries l).*1.
Proof.
  induction l as [| shard l IH]; [done |].
  change (shard_keys (shard :: l)) with ((map_to_list shard).*1 ++ shard_keys l).
  change (shard_entries (shard :: l)) with (map_to_list shard ++ shard_entries l).
  by rewrite fmap_app, IH.
Qed.

(** On a map with its entries in their shards, a key is listed exactly when
    it is found. *)
Lemma elem_of_shard_keys_find m k :
  allocated m → sharded m → k ∈ shard_keys m ↔ is_Some (find k m).
Proof.
  intros Hm Hs. rewrite elem_of_shard_keys.
  destruct (allocated_shard m k Hm) as [shard H].
  rewrite (find_eq _ _ _ H). split.
  - intros (j & shard' & Hj & Hv).
    rewrite <- (Hs j shard' k Hj Hv) in Hj. congruence.
  - intros Hv. eauto.
Qed.

Lemma elem_of_shard_entries_find m k v :
  allocated m → sharded m → (k, v) ∈ shard_entries m ↔ find k m = Some v.
Proof.
  intros Hm Hs. unfold shard_entries. rewrite list_elem_of_bind.
  destruct (allocated_shard m k Hm) as [shard H].
  rewrite (find_eq _ _ _ H). split.
  - intros (shard' & Hkv & Hin). apply elem_of_map_to_list in Hkv.
    apply list_elem_of_lookup in Hin as [j Hj].
    rewrite <- (Hs j shard' k Hj (ex_intro _ v Hkv)) in Hj. congruence.
  - intros Hv. exists shard. split; [by apply elem_of_map_to_list |].
    apply list_elem_of_lookup. eauto.
Qed.

(** [Count] adds up the sizes of the shards. *)
Lemma Count_from pre l (acc : Go.M (list (gmap string V)) Z) c :
  acc (pre ++ l) = Some (c, pre ++ l) →
  fold_left
    (fun acc i => do count <- acc; do shard <- shard_at i;
                  Go.ret (count + Z.of_nat (size shard)))
    (seq (List.length pre) (List.length l)) acc (pre ++ l)
  = Some (c + Z.of_nat (sum_list (size <$> l)), pre ++ l).
Proof.
  revert pre acc c. induction l as [| shard l IH]; intros pre acc c Hacc.
  - simpl. rewrite Hacc. do 2 f_equal. lia.
  - simpl.
    replace (pre ++ shard :: l) with ((pre ++ [shard]) ++ l) in *
      by by rewrite <- (assoc_L (++)).
    replace (S (List.length pre)) with (List.length (pre ++ [shard]))
      by (rewrite List.length_app; simpl; lia).
    rewrite (IH (pre ++ [shard]) _ (c + Z.of_nat (size shard))).
    + do 2 f_equal. change (list_fmap (gmap string V) nat size l) with (size <$> l). lia.
    + unfold Go.bind, shard_at. rewrite Hacc.
      rewrite <- (assoc_L (++)). simpl.
      by rewrite (list_lookup_middle pre l shard _ eq_refl).
Qed.

Lemma Count_eq m :
  allocated m → Count m = Some (Z.of_nat (sum_list (size <$> m)), m).
Proof.
  intros Hm. unfold Count. rewrite <- Hm.
  by apply (Count_from [] m (Go.ret 0) 0).
Qed.

Lemma Keys_eq m : allocated m → Keys m = Some (shard_keys m, m).
Proof.
  intros Hm. unfold Keys. rewrite (bind_eq _ _ _ _ _ (Count_eq m Hm)).
  repeat f_equal.
  assert (Hgen : ∀ l acc,
    fold_left (λ keys shard, keys ++ (map_to_list shard).*1) l acc
    = acc ++ shard_keys l).
  { induction l as [| shard l IH]; intros acc; simpl.
    - by rewrite (right_id_L [] (++)).
    - rewrite IH. by rewrite <- (assoc_L (++)). }
  apply Hgen.
Qed.

Lemma sum_sizes_store m i shard shard' :
  m !! i = Some shard →
  (sum_list (size <$> <[i := shard']> m) + size shard
   = sum_list (size <$> m) + size shard')%nat.
Proof.
  intros H. rewrite <- (take_drop_middle m i shard H) at 2.
  rewrite insert_take_drop by by apply lookup_lt_Some in H.
  rewrite !fmap_app, !sum_list_with_app. simpl. lia.
Qed.

End MapMoreFacts.

Section MapMore.
Context {V : Type} `{!Interface V}.
Implicit Types (m l : list (gmap string V)) (shard : gmap string V).
Implicit Types (k key : string) (v : V).

Import CMap.

Lemma Upsert_eq m k v (cb : bool → V → V → V) shard :
  m !! shard_index k = Some shard →
  Upsert k v cb m
  = Some (cb (found (shard !! k)).2 (found (shard !! k)).1 v,
          <[shard_index k := <[k := cb (found (shard !! k)).2 (found (shard !! k)).1 v]> shard]> m).
Proof.
  intros H. unfold Upsert. rewrite (bind_eq _ _ _ _ _ (GetShard_eq _ _ _ H)).
  unfold index. by destruct (shard !! k).
Qed.

Lemma found_Some (o : option V) v : found o = (v, true) ↔ o = Some v.
Proof. destruct o; simpl; split; congruence. Qed.

Lemma eval_Get_Some m k v :
  allocated m → Go.eval (Get k) m = Some (v, true) ↔ find k m = Some v.
Proof.
  intros Hm. rewrite eval_Get by done. rewrite <- found_Some.
  split; congruence.
Qed.

Lemma eval_Has_true m k :
  allocated m → Go.eval (Has k) m = Some true ↔ is_Some (find k m).
Proof.
  intros Hm. rewrite eval_Has by done. destruct (find k m); simpl; split; try done.
Qed.

(** A run of [Set]s, one per pair of the list. *)
Lemma for_each_Set (kvs : list (string * V)) m :
  allocated m → sharded m →
  ∃ m', Go.for_each kvs (λ kv, Set_ kv.1 kv.2) m = Some (tt, m') ∧
        allocated m' ∧ sharded m' ∧
        (NoDup kvs.*1 →
         ∀ k, find k m' = match (list_to_map kvs : gmap string V) !! k with
                          | Some v => Some v
                          | None => find k m
                          end).
Proof.
  revert m. induction kvs as [| [k0 v0] kvs IH]; intros m Hm Hs.
  - exists m. repeat split; try done.
  - destruct (allocated_shard m k0 Hm) as [shard H].
    set (m1 := <[shard_index k0 := <[k0 := v0]> shard]> m).
    destruct (IH m1) as (m' & Hrun & Hm' & Hs' & Hfind).
    { by apply allocated_store. }
    { by apply sharded_insert. }
    exists m'. split; [| split; [done | split; [done |]]].
    + simpl. by rewrite (bind_eq _ _ _ _ _ (Set_eq m k0 v0 shard H)).
    + intros Hnd k. apply NoDup_cons in Hnd as [Hk0 Hnd]. simpl in Hk0.
      rewrite Hfind by done. simpl.
      destruct (decide (k0 = k)) as [<- | Hne].
      * rewrite lookup_insert_eq.
        rewrite (proj1 (not_elem_of_list_to_map kvs k0) Hk0).
        unfold m1. by rewrite find_store_eq, lookup_insert_eq.
      * rewrite lookup_insert_ne by done.
        destruct (list_to_map kvs !! k); [done |]. unfold m1.
        apply (find_store_frame m k0 k shard); [done |].
        by rewrite lookup_insert_ne.
Qed.

(** X1. Every writing operation, run on a map with 32 shards whose entries
    sit in the shards their keys hash to, returns without panic and leaves
    such a map. *)
Theorem writes_keep_entries_in_their_shards m k v (cb : bool → V → V → V)
    (data : gmap string V) :
  allocated m → sharded m →
  (∃ m', Go.exec (Set_ k v) m = Some m' ∧ allocated m' ∧ sharded m') ∧
  (∃ m', Go.exec (SetIfAbsent k v) m = Some m' ∧ allocated m' ∧ sharded m') ∧
  (∃ m', Go.exec (Upsert k v cb) m = Some m' ∧ allocated m' ∧ sharded m') ∧
  (∃ m', Go.exec (Remove k) m = Some m' ∧ allocated m' ∧ sharded m') ∧
  (∃ m', Go.exec (Pop k) m = Some m' ∧ allocated m' ∧ sharded m') ∧
  (∃ m', Go.exec (MSet data) m = Some m' ∧ allocated m' ∧ sharded m').
Proof.
  intros Hm Hs. destruct (allocated_shard m k Hm) as [shard H].
  unfold Go.exec. repeat split.
  - rewrite (Set_eq _ _ _ _ H). eexists. split; [done |].
    split; [by apply allocated_store | by apply sharded_insert].
  - rewrite (SetIfAbsent_eq _ _ _ _ H). destruct (shard !! k).
    + by exists m.
    + eexists. split; [done |].
      split; [by apply allocated_store | by apply sharded_insert].
  - rewrite (Upsert_eq _ _ _ _ _ H). eexists. split; [done |].
    split; [by apply allocated_store | by apply sharded_insert].
  - rewrite (Remove_eq _ _ _ H). eexists. split; [done |].
    split; [by apply allocated_store | by apply sharded_delete].
  - rewrite (Pop_eq _ _ _ H). eexists. split; [done |].
    split; [by apply allocated_store | by apply sharded_delete].
  - destruct (for_each_Set (map_to_list data) m Hm Hs) as (m' & Hrun & Hm' & Hs' & _).
    exists m'. unfold MSet. by rewrite Hrun.
Qed.

(** X2. On such a map [Items] is the map's content: it holds for each key
    what [Get] reports for it, and has as many entries as [Count] says. *)
Theorem Items_is_the_content m :
  allocated m → sharded m →
  ∃ items,
    Items m = Some (items, m) ∧
    (∀ k, Go.eval (Get k) m = Some (found (items !! k))) ∧
    Go.eval Count m = Some (Z.of_nat (size items)).
Proof.
  intros Hm Hs. eexists. split; [reflexivity |].
  set (items := fold_left (λ tmp shard, copy_into shard tmp) m ∅).
  assert (Hitems : ∀ k, items !! k = find k m).
  { intros k. destruct (Items_find m k Hm Hs) as (items' & Heq & Hk).
    injection Heq as <-. exact Hk. }
  split.
  - intros k. by rewrite eval_Get, Hitems.
  - unfold Go.eval. rewrite Count_eq by done. simpl. do 2 f_equal.
    rewrite <- length_shard_keys, shard_keys_entries, length_fmap.
    rewrite <- length_map_to_list. apply Permutation_length, NoDup_Permutation.
    + apply (NoDup_fmap_1 fst). rewrite <- shard_keys_entries.
      by apply (NoDup_shard_keys 0).
    + apply NoDup_map_to_list.
    + intros [k v]. rewrite elem_of_map_to_list, Hitems.
      by apply elem_of_shard_entries_find.
Qed.

(** X3. On such a map [Keys] lists every present key once and no other
    key, [Count] many in all. *)
Theorem Keys_lists_present_keys_once m :
  allocated m → sharded m →
  ∃ keys,
    Keys m = Some (keys, m) ∧
    NoDup keys ∧
    (∀ k, k ∈ keys ↔ Go.eval (Has k) m = Some true) ∧
    Go.eval Count m = Some (Z.of_nat (List.length keys)).
Proof.
  intros Hm Hs. exists (shard_keys m). split; [by apply Keys_eq |]. split; [| split].
  - by apply (NoDup_shard_keys 0).
  - intros k. rewrite eval_Has_true by done. by apply elem_of_shard_keys_find.
  - unfold Go.eval. rewrite Count_eq by done. simpl. by rewrite length_shard_keys.
Qed.

(** X4. On such a map [IterCb] runs the callback once on every entry that
    [Get] reports, and on nothing else, threading the callback's state
    through the calls; the map is unchanged. *)
Theorem IterCb_visits_each_entry_once {A} (fn : string → V → A → A) (a : A) m :
  allocated m → sharded m →
  ∃ visited,
    IterCb fn a m = Some (fold_left (λ a kv, fn kv.1 kv.2 a) visited a, m) ∧
    NoDup visited.*1 ∧
    (∀ k v, (k, v) ∈ visited ↔ Go.eval (Get k) m = Some (v, true)).
Proof.
  intros Hm Hs. exists (shard_entries m). split; [| split].
  - unfold IterCb. do 2 f_equal. clear Hm Hs. revert a.
    induction m as [| shard m IH]; intros a; [done |].
    change (shard_entries (shard :: m)) with (map_to_list shard ++ shard_entries m).
    rewrite fold_left_app. simpl. apply IH.
  - rewrite <- shard_keys_entries. by apply (NoDup_shard_keys 0).
  - intros k v. rewrite eval_Get_Some by done. by apply elem_of_shard_entries_find.
Qed.

End MapMore.

Section MapMore2.
Context {V : Type} `{!Interface V}.
Implicit Types (m l : list (gmap string V)) (shard : gmap string V).
Implicit Types (k key : string) (v : V).

Import CMap.

Lemma eval_seq {A B} (c : Go.M (list (gmap string V)) A)
    (d : Go.M (list (gmap string V)) B) m a m' :
  c m = Some (a, m') → Go.eval (c ;; d) m = Go.eval d m'.
Proof. intros Hc. unfold Go.eval. by rewrite (bind_eq _ _ _ _ _ Hc). Qed.

Lemma exec_seq {A B} (c : Go.M (list (gmap string V)) A)
    (d : Go.M (list (gmap string V)) B) m a m' :
  c m = Some (a, m') → Go.exec (c ;; d) m = Go.exec d m'.
Proof. intros Hc. unfold Go.exec. by rewrite (bind_eq _ _ _ _ _ Hc). Qed.

Lemma eval_Count m :
  allocated m → Go.eval Count m = Some (Z.of_nat (sum_list (size <$> m))).
Proof. intros Hm. unfold Go.eval. by rewrite Count_eq. Qed.

(** X5. [Count] moves with the writes: [Set] on a key raises it by one when
    the key was absent and leaves it otherwise, [Remove] lowers it by one
    when the key was present and leaves it otherwise; it is never
    negative. *)
Theorem Count_follows_writes m k v :
  allocated m →
  ∃ n present,
    Go.eval Count m = Some n ∧ 0 ≤ n ∧
    Go.eval (Has k) m = Some present ∧
    Go.eval (Set_ k v ;; Count) m = Some (if present then n else n + 1) ∧
    Go.eval (Remove k ;; Count) m = Some (if present then n - 1 else n).
Proof.
  intros Hm. destruct (allocated_shard m k Hm) as [shard H].
  exists (Z.of_nat (sum_list (size <$> m))), (bool_decide (is_Some (shard !! k))).
  split; [by apply eval_Count |]. split; [lia |].
  split; [unfold Go.eval; by rewrite (Has_eq _ _ _ H) |].
  rewrite (eval_seq _ _ _ _ _ (Set_eq m k v shard H)).
  rewrite (eval_seq _ _ _ _ _ (Remove_eq m k shard H)).
  rewrite !eval_Count by by apply allocated_store.
  pose proof (sum_sizes_store m _ shard (<[k := v]> shard) H) as Hins.
  pose proof (sum_sizes_store m _ shard (delete k shard) H) as Hdel.
  destruct (shard !! k) as [x |] eqn:Hk; simpl.
  - rewrite map_size_insert_Some in Hins by eauto.
    rewrite map_size_delete_Some in Hdel by eauto.
    assert (size shard ≠ 0%nat).
    { intros Hz. apply map_size_empty_iff in Hz. subst shard.
      by rewrite lookup_empty in Hk. }
    split; f_equal; lia.
  - rewrite map_size_insert_None in Hins by done.
    rewrite map_size_delete_None in Hdel by done.
    split; f_equal; lia.
Qed.

(** X6. [IsEmpty] answers [true] exactly when no key is present, and after
    a [Set] it answers [false]. *)
Theorem IsEmpty_iff_no_key m k v :
  allocated m → sharded m →
  ∃ b,
    Go.eval IsEmpty m = Some b ∧
    (b = true ↔ ∀ k', Go.eval (Has k') m = Some false) ∧
    Go.eval (Set_ k v ;; IsEmpty) m = Some false.
Proof.
  intros Hm Hs. destruct (allocated_shard m k Hm) as [shard H].
  exists (Z.of_nat (sum_list (size <$> m)) =? 0). split; [| split].
  - unfold Go.eval, IsEmpty. by rewrite (bind_eq _ _ _ _ _ (Count_eq m Hm)).
  - rewrite Z.eqb_eq, <- length_shard_keys. split.
    + intros Hz k'. apply eval_Has_false; [done |].
      destruct (find k' m) eqn:E; [| done].
      assert (k' ∈ shard_keys m) as Hin by (apply elem_of_shard_keys_find; eauto).
      destruct (shard_keys m); [by apply elem_of_nil in Hin | simpl in Hz; lia].
    + intros Hno. destruct (shard_keys m) as [| k' ks] eqn:E; [done |].
      assert (is_Some (find k' m)) as [x Hx].
      { apply elem_of_shard_keys_find; [done | done |]. rewrite E. by left. }
      specialize (Hno k'). apply eval_Has_false in Hno; [| done]. congruence.
  - rewrite (eval_seq _ _ _ _ _ (Set_eq m k v shard H)).
    unfold Go.eval, IsEmpty.
    rewrite (bind_eq _ _ _ _ _ (Count_eq _ (allocated_store m _ _ Hm))). simpl.
    do 2 f_equal. apply Z.eqb_neq.
    pose proof (sum_sizes_store (<[shard_index k := <[k := v]> shard]> m) _
                  (<[k := v]> shard) ∅
                  (list_lookup_insert_eq _ _ _ (lookup_lt_Some _ _ _ H))) as Hins.
    rewrite map_size_empty in Hins.
    assert (size (<[k := v]> shard) ≠ 0%nat).
    { intros Hz. apply map_size_empty_iff in Hz.
      apply (f_equal (λ s : gmap string V, s !! k)) in Hz.
      by rewrite lookup_insert_eq, lookup_empty in Hz. }
    lia.
Qed.

(** X7. [Upsert] hands the callback whether the key was present, its old
    value ([nil] when absent) and the new value, stores what the callback
    returns and returns it; other keys are untouched. *)
Theorem Upsert_stores_callback_result m k v (cb : bool → V → V → V) :
  allocated m →
  ∃ old present m',
    Go.eval (Get k) m = Some (old, present) ∧
    Upsert k v cb m = Some (cb present old v, m') ∧
    Go.eval (Get k) m' = Some (cb present old v, true) ∧
    (∀ k', k ≠ k' → Go.eval (Get k') m' = Go.eval (Get k') m).
Proof.
  intros Hm. destruct (allocated_shard m k Hm) as [shard H].
  exists (found (shard !! k)).1, (found (shard !! k)).2. eexists.
  split; [| split; [by apply Upsert_eq | split]].
  - rewrite eval_Get, (find_eq _ _ _ H) by done. by destruct (found (shard !! k)).
  - rewrite eval_Get by by apply allocated_store.
    by rewrite find_store_eq, lookup_insert_eq.
  - intros k' Hne. rewrite !eval_Get by (try apply allocated_store; done).
    f_equal. f_equal. apply (find_store_frame m k k' shard); [done |].
    by rewrite lookup_insert_ne.
Qed.

(** X8. After [MSet data] every key of [data] reads the value [data] gives
    it and every other key reads as before; an empty [data] changes
    nothing. *)
Theorem MSet_overrides_with_data m (data : gmap string V) :
  allocated m → sharded m →
  ∃ m',
    MSet data m = Some (tt, m') ∧
    (∀ k, Go.eval (Get k) m' =
          match data !! k with
          | Some v => Some (v, true)
          | None => Go.eval (Get k) m
          end) ∧
    (data = ∅ → m' = m).
Proof.
  intros Hm Hs.
  destruct (for_each_Set (map_to_list data) m Hm Hs) as (m' & Hrun & Hm' & _ & Hfind).
  exists m'. split; [done |]. split.
  - intros k. rewrite !eval_Get by done.
    rewrite Hfind by apply NoDup_fst_map_to_list.
    rewrite list_to_map_to_list. by destruct (data !! k).
  - intros ->. rewrite map_to_list_empty in Hrun. simpl in Hrun.
    unfold Go.ret in Hrun. congruence.
Qed.

(** X9. On one key the last write wins: a [Set] overwrites an earlier
    [Set], a [Remove] undoes an earlier [Set], a second [Remove] changes
    nothing, and [Remove] of an absent key leaves the map as it is. *)
Theorem last_write_wins m k v v' :
  allocated m →
  Go.exec (Set_ k v ;; Set_ k v') m = Go.exec (Set_ k v') m ∧
  Go.exec (Set_ k v ;; Remove k) m = Go.exec (Remove k) m ∧
  Go.exec (Remove k ;; Remove k) m = Go.exec (Remove k) m ∧
  (Go.eval (Has k) m = Some false → Go.exec (Remove k) m = Some m).
Proof.
  intros Hm. destruct (allocated_shard m k Hm) as [shard H].
  assert (Hlt : (shard_index k < List.length m)%nat) by by apply lookup_lt_Some in H.
  assert (Hat : ∀ s, <[shard_index k := s]> m !! shard_index k = Some s).
  { intros s. by apply list_lookup_insert_eq. }
  pose proof (λ B (d : Go.M _ B), exec_seq _ d _ _ _ (Set_eq m k v shard H)) as HS.
  pose proof (λ B (d : Go.M _ B), exec_seq _ d _ _ _ (Remove_eq m k shard H)) as HR.
  rewrite !HS, !HR. clear HS HR. unfold Go.exec.
  rewrite (Set_eq _ k v' _ (Hat _)), (Set_eq _ k v' _ H).
  rewrite !(Remove_eq _ k _ (Hat _)), (Remove_eq _ k _ H). simpl.
  rewrite !list_insert_insert_eq. repeat split.
  - by rewrite insert_insert_eq.
  - by rewrite delete_insert_eq.
  - by rewrite delete_delete_eq.
  - intros Hk. apply eval_Has_false in Hk; [| done].
    rewrite (find_eq _ _ _ H) in Hk. rewrite delete_id by done.
    by rewrite list_insert_id.
Qed.

(** X10. Writes to different keys commute: the map after two of them does
    not depend on their order. *)
Theorem writes_to_different_keys_commute m k k' v v' :
  allocated m → k ≠ k' →
  Go.exec (Set_ k v ;; Set_ k' v') m = Go.exec (Set_ k' v' ;; Set_ k v) m ∧
  Go.exec (Set_ k v ;; Remove k') m = Go.exec (Remove k' ;; Set_ k v) m ∧
  Go.exec (Remove k ;; Remove k') m = Go.exec (Remove k' ;; Remove k) m.
Proof.
  intros Hm Hne.
  destruct (allocated_shard m k Hm) as [shard H].
  destruct (allocated_shard m k' Hm) as [shard' H'].
  assert (Hlt : (shard_index k < List.length m)%nat) by by apply lookup_lt_Some in H.
  assert (Hlt' : (shard_index k' < List.length m)%nat) by by apply lookup_lt_Some in H'.
  pose proof (λ B (d : Go.M _ B), exec_seq _ d _ _ _ (Set_eq m k v shard H)) as HS.
  pose proof (λ B (d : Go.M _ B), exec_seq _ d _ _ _ (Set_eq m k' v' shard' H')) as HS'.
  pose proof (λ B (d : Go.M _ B), exec_seq _ d _ _ _ (Remove_eq m k shard H)) as HR.
  pose proof (λ B (d : Go.M _ B), exec_seq _ d _ _ _ (Remove_eq m k' shard' H')) as HR'.
  rewrite !HS, !HS', !HR, !HR'. clear HS HS' HR HR'. unfold Go.exec.
  destruct (decide (shard_index k = shard_index k')) as [E | E].
  - rewrite <- E in *. assert (shard' = shard) as -> by congruence.
    rewrite !(Set_eq _ k _ _ (list_lookup_insert_eq _ _ _ Hlt)).
    rewrite !(Remove_eq _ k _ (list_lookup_insert_eq _ _ _ Hlt)).
    assert (Hset' : ∀ s, Set_ k' v' (<[shard_index k := s]> m)
                     = Some (tt, <[shard_index k := <[k' := v']> s]> m)).
    { intros s. rewrite (Set_eq _ k' v' s) by by rewrite <- E, list_lookup_insert_eq.
      by rewrite <- E, list_insert_insert_eq. }
    assert (Hrem' : ∀ s, Remove k' (<[shard_index k := s]> m)
                     = Some (tt, <[shard_index k := delete k' s]> m)).
    { intros s. rewrite (Remove_eq _ k' s) by by rewrite <- E, list_lookup_insert_eq.
      by rewrite <- E, list_insert_insert_eq. }
    rewrite !Hset', !Hrem'. simpl. rewrite !list_insert_insert_eq. repeat split.
    + by rewrite (insert_insert_ne shard k k').
    + by rewrite delete_insert_ne.
    + by rewrite delete_delete.
  - assert (Hk : ∀ s, <[shard_index k' := s]> m !! shard_index k = Some shard).
    { intros s. by rewrite list_lookup_insert_ne. }
    assert (Hk' : ∀ s, <[shard_index k := s]> m !! shard_index k' = Some shard').
    { intros s. by rewrite list_lookup_insert_ne. }
    rewrite !(Set_eq _ k v _ (Hk _)), !(Set_eq _ k' v' _ (Hk' _)).
    rewrite !(Remove_eq _ k _ (Hk _)), !(Remove_eq _ k' _ (Hk' _)). simpl.
    repeat split; f_equal; by apply list_insert_insert_ne.
Qed.

End MapMore2.

Lemma writes_keep_entries_in_their_shards_witness :
  let m := Scenario.two_keys in
  let v := Reactor.VInt64 3 in
  (∃ m', Go.exec (Set_ "a" v) m = Some m' ∧ allocated m' ∧ sharded m') ∧
  (∃ m', Go.exec (SetIfAbsent "a" v) m = Some m' ∧ allocated m' ∧ sharded m') ∧
  (∃ m', Go.exec (Upsert "a" v (λ _ _ new, new)) m = Some m' ∧ allocated m' ∧ sharded m') ∧
  (∃ m', Go.exec (Remove "a") m = Some m' ∧ allocated m' ∧ sharded m') ∧
  (∃ m', Go.exec (Pop "a") m = Some m' ∧ allocated m' ∧ sharded m') ∧
  (∃ m', Go.exec (MSet {[ "c" := v ]}) m = Some m' ∧ allocated m' ∧ sharded m').
Proof.
  apply (writes_keep_entries_in_their_shards Scenario.two_keys).
  - vm_compute. reflexivity.
  - apply shardedb_sound. vm_compute. reflexivity.
Defined.

Lemma Items_is_the_content_witness :
  ∃ items,
    Items Scenario.two_keys = Some (items, Scenario.two_keys) ∧
    (∀ k, Go.eval (Get k) Scenario.two_keys = Some (found (items !! k))) ∧
    Go.eval Count Scenario.two_keys = Some (Z.of_nat (size items)).
Proof.
  apply (Items_is_the_content Scenario.two_keys).
  - vm_compute. reflexivity.
  - apply shardedb_sound. vm_compute. reflexivity.
Defined.

Lemma Keys_lists_present_keys_once_witness :
  ∃ keys,
    Keys Scenario.two_keys = Some (keys, Scenario.two_keys) ∧
    NoDup keys ∧
    (∀ k, k ∈ keys ↔ Go.eval (Has k) Scenario.two_keys = Some true) ∧
    Go.eval Count Scenario.two_keys = Some (Z.of_nat (List.length keys)).
Proof.
  apply (Keys_lists_present_keys_once Scenario.two_keys).
  - vm_compute. reflexivity.
  - apply shardedb_sound. vm_compute. reflexivity.
Defined.

Lemma IterCb_visits_each_entry_once_witness :
  ∃ visited,
    IterCb (λ k _ (seen : list string), k :: seen) [] Scenario.two_keys
    = Some (fold_left (λ seen kv, kv.1 :: seen) visited [], Scenario.two_keys) ∧
    NoDup visited.*1 ∧
    (∀ k v, (k, v) ∈ visited ↔ Go.eval (Get k) Scenario.two_keys = Some (v, true)).
Proof.
  apply (IterCb_visits_each_entry_once (λ k _ (seen : list string), k :: seen) []
           Scenario.two_keys).
  - vm_compute. reflexivity.
  - apply shardedb_sound. vm_compute. reflexivity.
Defined.

Lemma Count_follows_writes_witness :
  ∃ n present,
    Go.eval Count Scenario.two_keys = Some n ∧ 0 ≤ n ∧
    Go.eval (Has "c") Scenario.two_keys = Some present ∧
    Go.eval (Set_ "c" (Reactor.VInt64 3) ;; Count) Scenario.two_keys
    = Some (if present then n else n + 1) ∧
    Go.eval (Remove "c" ;; Count) Scenario.two_keys
    = Some (if present then n - 1 else n).
Proof.
  apply (Count_follows_writes Scenario.two_keys "c" (Reactor.VInt64 3)).
  vm_compute. reflexivity.
Defined.

Lemma IsEmpty_iff_no_key_witness :
  ∃ b,
    Go.eval IsEmpty (NewConcurrentMap (V := Reactor.Value)) = Some b ∧
    (b = true ↔ ∀ k', Go.eval (Has k') (NewConcurrentMap (V := Reactor.Value)) = Some false) ∧
    Go.eval (Set_ "a" (Reactor.VInt64 1) ;; IsEmpty) NewConcurrentMap = Some false.
Proof.
  apply (IsEmpty_iff_no_key (V := Reactor.Value) NewConcurrentMap "a" (Reactor.VInt64 1)).
  - vm_compute. reflexivity.
  - apply shardedb_sound. vm_compute. reflexivity.
Defined.

Lemma Upsert_stores_callback_result_witness :
  let cb := λ (present : bool) (old new : Reactor.Value),
              if present then old else new in
  ∃ old present m',
    Go.eval (Get "a") Scenario.two_keys = Some (old, present) ∧
    Upsert "a" (Reactor.VInt64 3) cb Scenario.two_keys
    = Some (cb present old (Reactor.VInt64 3), m') ∧
    Go.eval (Get "a") m' = Some (cb present old (Reactor.VInt64 3), true) ∧
    (∀ k', "a" ≠ k' → Go.eval (Get k') m' = Go.eval (Get k') Scenario.two_keys).
Proof.
  apply (Upsert_stores_callback_result Scenario.two_keys "a" (Reactor.VInt64 3)).
  vm_compute. reflexivity.
Defined.

Lemma MSet_overrides_with_data_witness :
  let data : gmap string Reactor.Value :=
    {[ "a" := Reactor.VInt64 7; "c" := Reactor.VInt64 8 ]} in
  ∃ m',
    MSet data Scenario.two_keys = Some (tt, m') ∧
    (∀ k, Go.eval (Get k) m' =
          match data !! k with
          | Some v => Some (v, true)
          | None => Go.eval (Get k) Scenario.two_keys
          end) ∧
    (data = ∅ → m' = Scenario.two_keys).
Proof.
  apply (MSet_overrides_with_data Scenario.two_keys).
  - vm_compute. reflexivity.
  - apply shardedb_sound. vm_compute. reflexivity.
Defined.

Lemma last_write_wins_witness :
  let m := Scenario.two_keys in
  Go.exec (Set_ "a" (Reactor.VInt64 3) ;; Set_ "a" (Reactor.VInt64 4)) m
  = Go.exec (Set_ "a" (Reactor.VInt64 4)) m ∧
  Go.exec (Set_ "a" (Reactor.VInt64 3) ;; Remove "a") m = Go.exec (Remove "a") m ∧
  Go.exec (Remove "a" ;; Remove "a") m = Go.exec (Remove "a") m ∧
  (Go.eval (Has "a") m = Some false → Go.exec (Remove "a") m = Some m).
Proof.
  apply (last_write_wins Scenario.two_keys "a"). vm_compute. reflexivity.
Defined.

Lemma writes_to_different_keys_commute_witness :
  let m := Scenario.two_keys in
  Go.exec (Set_ "a" (Reactor.VInt64 3) ;; Set_ "b" (Reactor.VInt64 4)) m
  = Go.exec (Set_ "b" (Reactor.VInt64 4) ;; Set_ "a" (Reactor.VInt64 3)) m ∧
  Go.exec (Set_ "a" (Reactor.VInt64 3) ;; Remove "b") m
  = Go.exec (Remove "b" ;; Set_ "a" (Reactor.VInt64 3)) m ∧
  Go.exec (Remove "a" ;; Remove "b") m = Go.exec (Remove "b" ;; Remove "a") m.
Proof.
  apply (writes_to_different_keys_commute Scenario.two_keys "a" "b").
  - vm_compute. reflexivity.
  - discriminate.
Defined.

(** * Further properties of the beat reactor *)

Section ReactorMoreFacts.
Import Reactor.
Implicit Types (s : State) (k : string) (p : ptr) (e : Env) (i : Instance).

Lemma loop_body_acquire_err s k p e :
  acquire_err e = true → loop_body k p e s = Some (Return, s).
Proof. intros He. unfold loop_body, Acquire. by rewrite He. Qed.

Lemma loop_body_waiting s k p e :
  acquire_err e = false →
  size (beatThreadSemaphore (reactor s)) ≤ cur (beatThreadSemaphore (reactor s)) →
  loop_body k p e s = Some (Waiting, s).
Proof.
  intros He Hfull. unfold loop_body, Acquire. rewrite He.
  unfold Go.bind at 2, Go.get. unfold Go.bind.
  destruct (Z.leb_spec 1 (size (beatThreadSemaphore (reactor s))
                          - cur (beatThreadSemaphore (reactor s)))); [lia | done].
Qed.

Lemma evolves_refl s : evolves s s.
Proof. repeat split; try done. exists []. by rewrite (right_id_L [] (++)). Qed.

Lemma evolves_trans s1 s2 s3 : evolves s1 s2 → evolves s2 s3 → evolves s1 s3.
Proof.
  intros (H1 & H2 & H3 & H4 & H5 & H6 & H7 & H8 & [t Ht])
         (G1 & G2 & G3 & G4 & G5 & G6 & G7 & G8 & [u Hu]).
  repeat split; try congruence; try lia; eauto.
  exists (t ++ u). by rewrite Hu, Ht, (assoc_L (++)).
Qed.

Lemma evolves_with_trace s t : evolves s (with_trace s t).
Proof. repeat split; try done. by exists t. Qed.

(** One pass from a ready state: it returns, the state stays ready, and
    the pass has changed no more than a task may. *)
Lemma loop_body_ready s k p e :
  ready s p →
  ∃ c s', loop_body k p e s = Some (c, s') ∧ ready s' p ∧ evolves s s' ∧
          cur (beatThreadSemaphore (reactor s')) ≤ cur (beatThreadSemaphore (reactor s)) + 1 ∧
          (c = Return ∨ beatThreadSemaphore (reactor s') = beatThreadSemaphore (reactor s)).
Proof.
  intros ([i Hp] & [cfg Hcfg] & Hlive & Hrecs & Hcur & Hsize).
  assert (Hready : ready s p) by (repeat split; eauto).
  destruct (acquire_err e) eqn:Hacq.
  { exists Return, s. rewrite loop_body_acquire_err by done.
    split; [done |]. split; [done |]. split; [apply evolves_refl |]. split; [lia | by right]. }
  destruct (decide (size (beatThreadSemaphore (reactor s))
                    ≤ cur (beatThreadSemaphore (reactor s)))) as [Hfull | Hfree].
  { exists Waiting, s. rewrite loop_body_waiting by done.
    split; [done |]. split; [done |]. split; [apply evolves_refl |]. split; [lia | by right]. }
  assert (Hslot : slot_free s) by (split; lia).
  destruct (decide (Status i = "UP")) as [Hup | Hdown].
  - destruct (beat e) as [err |] eqn:Hbeat.
    + destruct (errors_Is err ErrNotFound) eqn:Herr.
      * destruct (loop_body_not_found s k p e i cfg err) as (live & Hrm & Hbody); try done.
        eexists _, _. split; [exact Hbody |].
        destruct (allocated_shard _ k Hlive) as [shard Hshard].
        rewrite (Remove_eq _ _ _ Hshard) in Hrm. injection Hrm as <-.
        split; [| split].
        -- repeat split; simpl; eauto; try lia. by apply allocated_store.
        -- repeat split; simpl; try done; try lia; [| by eexists].
           intros k' v Hk'.
           destruct (decide (k = k')) as [<- | Hne].
           ++ by rewrite find_store_eq, lookup_delete_eq in Hk'.
           ++ rewrite (find_store_frame _ k k' shard) in Hk'; [done | done |].
              by rewrite lookup_delete_ne.
        -- simpl. split; [lia | by left].
      * exists Continue, (with_trace s (beat_pass s cfg i)).
        rewrite (loop_body_transient s k p e i cfg) by
          (try done; unfold transient; by rewrite Hacq, Hbeat, Herr).
        split; [done |]. split; [done |]. split; [apply evolves_with_trace |].
        simpl. split; [lia | by right].
    + destruct (loop_body_success s k p e i cfg) as (records & Hset & Hbody); try done.
      eexists _, _. split; [exact Hbody |].
      destruct (allocated_shard _ k Hrecs) as [shard Hshard].
      rewrite (Set_eq _ _ _ _ Hshard) in Hset. injection Hset as <-.
      split; [| split].
      * repeat split; simpl; eauto; try lia. by apply allocated_store.
      * repeat split; simpl; try done; try lia; [| by eexists].
        intros k' Hk'. destruct (decide (k = k')) as [<- | Hne].
        -- by rewrite find_store_eq, lookup_insert_eq.
        -- rewrite (find_store_frame _ k k' shard); [done | done |].
           by rewrite lookup_insert_ne.
      * simpl. split; [lia | by right].
  - exists Return, (with_trace s [EvAcquire; EvRelease]).
    rewrite (loop_body_stopped s k p e i) by done.
    split; [done |]. split; [done |]. split; [apply evolves_with_trace |].
    simpl. split; [lia | by left].
Qed.

Lemma set_beatRecordMap_id s : set_beatRecordMap (beatRecordMap (reactor s)) s = s.
Proof. by destruct s as [h [] gs tr]. Qed.

Lemma on_beatRecordMap_Get s k :
  CMap.allocated (beatRecordMap (reactor s)) →
  on_beatRecordMap (CMap.Get k) s
  = Some (CMap.found (CMap.find k (beatRecordMap (reactor s))), s).
Proof.
  intros Hm. rewrite (on_beatRecordMap_eq _ s _ _ (Get_find _ k Hm)).
  by rewrite set_beatRecordMap_id.
Qed.

Lemma eval_on_beatMap_Get s k :
  CMap.allocated (beatMap (reactor s)) →
  Go.eval (on_beatMap (CMap.Get k)) s
  = Some (CMap.found (CMap.find k (beatMap (reactor s)))).
Proof. intros Hm. unfold Go.eval. by rewrite on_beatMap_Get. Qed.

Lemma eval_on_beatRecordMap_Get s k :
  CMap.allocated (beatRecordMap (reactor s)) →
  Go.eval (on_beatRecordMap (CMap.Get k)) s
  = Some (CMap.found (CMap.find k (beatRecordMap (reactor s)))).
Proof. intros Hm. unfold Go.eval. by rewrite on_beatRecordMap_Get. Qed.

(** The whole loop from a ready state. *)
Lemma sendInstanceBeat_ready s k p es :
  ready s p →
  ∃ c s', sendInstanceBeat k p es s = Some (c, s') ∧ ready s' p ∧ evolves s s' ∧
          cur (beatThreadSemaphore (reactor s')) ≤ cur (beatThreadSemaphore (reactor s)) + 1 ∧
          (c = Return ∨ beatThreadSemaphore (reactor s') = beatThreadSemaphore (reactor s)).
Proof.
  revert s. induction es as [| e es IH]; intros s Hready.
  - exists Continue, s. split; [done |]. split; [done |].
    split; [apply evolves_refl |]. split; [lia | by right].
  - destruct (loop_body_ready s k p e Hready) as (c & s1 & Hbody & Hready1 & Hev1 & Hle & Hc).
    simpl. rewrite (bind_eq _ _ _ _ _ Hbody).
    destruct c.
    + destruct Hc as [Hc | Hc]; [done |].
      destruct (IH s1 Hready1) as (c' & s' & Hrun & Hready' & Hev' & Hle' & Hc').
      exists c', s'. split; [done |]. split; [done |].
      split; [by apply (evolves_trans s s1 s') |]. rewrite <- Hc. done.
    + by exists Return, s1.
    + by exists Waiting, s1.
Qed.

(** A pass that ends in a recorded beat. *)
Lemma loop_body_succeeds s k p e i cfg :
  heap s !! p = Some i → Status i = "UP" → config (reactor s) = Some cfg →
  slot_free s → succeeds e = true → CMap.allocated (beatRecordMap (reactor s)) →
  ∃ shard,
    beatRecordMap (reactor s) !! CMap.shard_index k = Some shard ∧
    loop_body k p e s
    = Some (Continue,
            with_trace
              (set_beatRecordMap
                 (<[CMap.shard_index k := <[k := VInt64 (now e ÷ 1000000)]> shard]>
                    (beatRecordMap (reactor s))) s)
              (beat_pass s cfg i)).
Proof.
  intros Hp Hup Hcfg Hfree He Hrecs. unfold succeeds in He.
  apply andb_prop in He as [Hacq He]. apply negb_true_iff in Hacq.
  destruct (beat e) eqn:Hbeat; [done |].
  destruct (loop_body_success s k p e i cfg) as (records & Hset & Hbody); try done.
  destruct (allocated_shard _ k Hrecs) as [shard Hshard].
  rewrite (Set_eq _ _ _ _ Hshard) in Hset. injection Hset as <-.
  by exists shard.
Qed.

Lemma RemoveBeatInfo_absent s svc k :
  CMap.allocated (beatMap (reactor s)) →
  CMap.find k (beatMap (reactor s)) = None →
  RemoveBeatInfo svc k s = Some (tt, s).
Proof.
  intros Hm Hk. destruct (allocated_shard _ k Hm) as [shard Hshard].
  unfold RemoveBeatInfo.
  rewrite (bind_eq _ _ _ _ _ (on_beatMap_Get s k Hm)), Hk. cbn [CMap.found snd].
  cbv iota. rewrite (bind_eq _ _ _ tt s (eq_refl : Go.ret tt s = Some (tt, s))).
  rewrite (on_beatMap_eq _ s _ _ (Remove_eq _ k shard Hshard)).
  rewrite (find_eq _ _ _ Hshard) in Hk.
  by rewrite delete_id, list_insert_id, set_beatMap_id.
Qed.

Lemma AddBeatInfo_absent s p i :
  heap s !! p = Some i →
  CMap.allocated (beatMap (reactor s)) →
  CMap.find (InstanceID i) (beatMap (reactor s)) = None →
  ∃ shard,
    beatMap (reactor s) !! CMap.shard_index (InstanceID i) = Some shard ∧
    AddBeatInfo p s
    = Some (tt, spawn (InstanceID i) p
                  (set_beatMap
                     (<[CMap.shard_index (InstanceID i)
                        := <[InstanceID i := VInstance p]> shard]> (beatMap (reactor s)))
                     s)).
Proof.
  intros Hp Hm Hk. set (k := InstanceID i) in *.
  destruct (allocated_shard _ k Hm) as [shard Hshard].
  exists shard. split; [done |]. unfold AddBeatInfo.
  rewrite (bind_eq _ _ _ _ _ (load_eq p s i Hp)). fold k.
  rewrite (bind_eq _ _ _ _ _ (on_beatMap_Get s k Hm)), Hk. cbn [CMap.found snd].
  cbv iota. rewrite (bind_eq _ _ _ p s (eq_refl : Go.ret p s = Some (p, s))).
  by rewrite (bind_eq _ _ _ _ _
                (on_beatMap_eq _ s _ _ (Set_eq _ k (VInstance p) shard Hshard))).
Qed.

Lemma live_okb_sound s : live_okb s = true → live_ok s.
Proof.
  unfold live_okb. intros Hb. apply andb_prop in Hb as [Hlen Hall].
  apply bool_decide_eq_true in Hlen. split; [done |].
  intros k v Hk. unfold CMap.find in Hk.
  destruct (beatMap (reactor s) !! CMap.shard_index k) as [shard |] eqn:Hshard; [| done].
  simpl in Hk.
  assert (Hin : (k, v) ∈ CMap.shard_entries (beatMap (reactor s))).
  { unfold CMap.shard_entries. apply list_elem_of_bind. exists shard.
    split; [by apply elem_of_map_to_list |]. apply list_elem_of_lookup. eauto. }
  apply Is_true_true, forallb_True in Hall. rewrite Forall_forall in Hall.
  apply Hall in Hin. simpl in Hin. destruct v as [| p |]; try done.
  exists p. split; [done |]. by apply bool_decide_unpack in Hin.
Qed.

End ReactorMoreFacts.

Section ReactorMore.
Import Reactor.
Implicit Types (s : State) (k : string) (p : ptr) (e : Env) (i : Instance).

(** X11. From a ready state the task never panics, whatever the
    environment answers and however long it runs: it ends the passes in a
    ready state, having changed only what a task may, and holds at most one
    slot more than before, none unless it has returned. *)
Theorem task_never_panics s k p es :
  ready s p →
  ∃ c s',
    sendInstanceBeat k p es s = Some (c, s') ∧
    ready s' p ∧ evolves s s' ∧
    cur (beatThreadSemaphore (reactor s')) ≤ cur (beatThreadSemaphore (reactor s)) + 1 ∧
    (c ≠ Return →
     cur (beatThreadSemaphore (reactor s')) = cur (beatThreadSemaphore (reactor s))).
Proof.
  intros Hready.
  destruct (sendInstanceBeat_ready s k p es Hready) as (c & s' & Hrun & Hr & Hev & Hle & Hc).
  exists c, s'. repeat split; try done; try apply Hr; try apply Hev.
  intros Hne. destruct Hc as [-> | ->]; done.
Qed.

(** X12. With every slot in use a pass sends no heartbeat and changes
    nothing: the task waits in [Acquire], or returns when [Acquire] reports
    an error. *)
Theorem no_slot_no_heartbeat s k p e :
  size (beatThreadSemaphore (reactor s)) ≤ cur (beatThreadSemaphore (reactor s)) →
  loop_body k p e s = Some (if acquire_err e then Return else Waiting, s).
Proof.
  intros Hfull. destruct (acquire_err e) eqn:He.
  - by apply loop_body_acquire_err.
  - by apply loop_body_waiting.
Qed.

(** X13. A pass whose heartbeat succeeds records the clock, in
    milliseconds, under the task's key, where the beat-record map reports
    it; the records of other keys, the live map, the instance records and
    the semaphore are as before. *)
Theorem successful_beat_is_recorded s k p e i cfg :
  heap s !! p = Some i → Status i = "UP" → config (reactor s) = Some cfg →
  slot_free s → succeeds e = true → CMap.allocated (beatRecordMap (reactor s)) →
  ∃ s',
    loop_body k p e s = Some (Continue, s') ∧
    Go.eval (on_beatRecordMap (CMap.Get k)) s' = Some (VInt64 (now e ÷ 1000000), true) ∧
    (∀ k', k ≠ k' →
       Go.eval (on_beatRecordMap (CMap.Get k')) s'
       = Go.eval (on_beatRecordMap (CMap.Get k')) s) ∧
    beatMap (reactor s') = beatMap (reactor s) ∧
    beatThreadSemaphore (reactor s') = beatThreadSemaphore (reactor s) ∧
    heap s' = heap s ∧
    trace s' = trace s ++ beat_pass s cfg i.
Proof.
  intros Hp Hup Hcfg Hfree He Hrecs.
  destruct (loop_body_succeeds s k p e i cfg) as (shard & Hshard & Hbody); try done.
  eexists. split; [exact Hbody |].
  assert (Halloc : CMap.allocated
            (<[CMap.shard_index k := <[k := VInt64 (now e ÷ 1000000)]> shard]>
               (beatRecordMap (reactor s)))) by by apply allocated_store.
  split; [| split; [| done]].
  - rewrite eval_on_beatRecordMap_Get by done. simpl.
    by rewrite find_store_eq, lookup_insert_eq.
  - intros k' Hne. rewrite !eval_on_beatRecordMap_Get by done. simpl.
    do 2 f_equal. apply (find_store_frame _ k k' shard); [done |].
    by rewrite lookup_insert_ne.
Qed.

(** X14. A task whose record no longer reads ["UP"] ends at its next pass:
    it takes a slot, gives it back and returns without a heartbeat, and
    ignores whatever the environment would have answered later. *)
Theorem record_not_UP_ends_task s k p e es i :
  heap s !! p = Some i → Status i ≠ "UP" → slot_free s → acquire_err e = false →
  sendInstanceBeat k p (e :: es) s = Some (Return, with_trace s [EvAcquire; EvRelease]).
Proof.
  intros Hp Hdown Hfree Hacq. simpl.
  by rewrite (bind_eq _ _ _ _ _ (loop_body_stopped s k p e i Hp Hdown Hfree Hacq)).
Qed.

(** Passes that all succeed, run one after the other. *)
Lemma sendInstanceBeat_successes s k p i cfg oks :
  heap s !! p = Some i → Status i = "UP" → config (reactor s) = Some cfg →
  slot_free s → CMap.allocated (beatRecordMap (reactor s)) →
  forallb succeeds oks = true →
  ∃ records,
    CMap.allocated records ∧
    CMap.find k records
    = match last oks with
      | Some ok => Some (VInt64 (now ok ÷ 1000000))
      | None => CMap.find k (beatRecordMap (reactor s))
      end ∧
    ∀ rest,
      sendInstanceBeat k p (oks ++ rest) s
      = sendInstanceBeat k p rest
          (with_trace (set_beatRecordMap records s)
             (mjoin (replicate (List.length oks) (beat_pass s cfg i)))).
Proof.
  intros Hp Hup Hcfg Hfree. revert s Hp Hcfg Hfree.
  induction oks as [| e oks IH]; intros s Hp Hcfg Hfree Hrecs Hoks.
  - exists (beatRecordMap (reactor s)). split; [done |]. split; [done |].
    intros rest. simpl. by rewrite set_beatRecordMap_id, with_trace_nil.
  - simpl in Hoks. apply andb_prop in Hoks as [He Hoks].
    destruct (loop_body_succeeds s k p e i cfg) as (shard & Hshard & Hbody); try done.
    set (s1 := with_trace
                 (set_beatRecordMap
                    (<[CMap.shard_index k := <[k := VInt64 (now e ÷ 1000000)]> shard]>
                       (beatRecordMap (reactor s))) s)
                 (beat_pass s cfg i)) in *.
    destruct (IH s1) as (records & Halloc & Hfind & Hrun); try done.
    { by apply allocated_store. }
    exists records. split; [done |]. split.
    + rewrite last_cons, Hfind. destruct (last oks); [done |].
      unfold s1. simpl. by rewrite find_store_eq, lookup_insert_eq.
    + intros rest. simpl. rewrite (bind_eq _ _ _ _ _ Hbody). cbv iota.
      rewrite Hrun. f_equal. unfold s1, with_trace, set_beatRecordMap. simpl.
      f_equal. by rewrite <- (assoc_L (++)).
Qed.

(** X15. A task whose heartbeats succeed and are then answered with
    not-found: it returns at that pass and ignores later answers; the trace
    shows one full pass per success and then an acquire and a heartbeat;
    the key has left the live map; the beat-record map still reports the
    time of the last success; one slot more is counted as in use. *)
Theorem beats_until_not_found s k p i cfg oks e rest :
  heap s !! p = Some i → Status i = "UP" → config (reactor s) = Some cfg →
  slot_free s →
  CMap.allocated (beatMap (reactor s)) → CMap.allocated (beatRecordMap (reactor s)) →
  forallb succeeds oks = true → not_found e = true →
  ∃ s',
    sendInstanceBeat k p (oks ++ e :: rest) s = Some (Return, s') ∧
    trace s' = trace s
               ++ mjoin (replicate (List.length oks) (beat_pass s cfg i))
               ++ [EvAcquire; EvHeartbeat (DefaultZone cfg) (App i) (InstanceID i)] ∧
    Go.eval (on_beatMap (CMap.Get k)) s' = Some (VNil, false) ∧
    Go.eval (on_beatRecordMap (CMap.Get k)) s'
    = Some (CMap.found
              match last oks with
              | Some ok => Some (VInt64 (now ok ÷ 1000000))
              | None => CMap.find k (beatRecordMap (reactor s))
              end) ∧
    cur (beatThreadSemaphore (reactor s')) = cur (beatThreadSemaphore (reactor s)) + 1.
Proof.
  intros Hp Hup Hcfg Hfree Hlive Hrecs Hoks He.
  destruct (sendInstanceBeat_successes s k p i cfg oks) as (records & Halloc & Hfind & Hrun);
    try done.
  unfold not_found in He. apply andb_prop in He as [Hacq He].
  apply negb_true_iff in Hacq. destruct (beat e) as [err |] eqn:Hbeat; [| done].
  set (s1 := with_trace (set_beatRecordMap records s)
               (mjoin (replicate (List.length oks) (beat_pass s cfg i)))) in *.
  destruct (loop_body_not_found s1 k p e i cfg err) as (live & Hrm & Hbody); try done.
  destruct (allocated_shard _ k Hlive) as [shard Hshard].
  change (beatMap (reactor s1)) with (beatMap (reactor s)) in Hrm.
  rewrite (Remove_eq _ _ _ Hshard) in Hrm. injection Hrm as <-.
  eexists. split.
  { rewrite Hrun. simpl. by rewrite (bind_eq _ _ _ _ _ Hbody). }
  split; [| split; [| split; [| done]]].
  - simpl. by rewrite <- (assoc_L (++)).
  - rewrite eval_on_beatMap_Get by (simpl; by apply allocated_store). simpl.
    by rewrite find_store_eq, lookup_delete_eq.
  - rewrite eval_on_beatRecordMap_Get by done. simpl. by rewrite Hfind.
Qed.

(** X16. [RemoveBeatInfo] of a key that is not in the live map changes
    nothing. *)
Theorem RemoveBeatInfo_unknown_key_is_noop s svc k :
  CMap.allocated (beatMap (reactor s)) →
  Go.eval (on_beatMap (CMap.Has k)) s = Some false →
  RemoveBeatInfo svc k s = Some (tt, s).
Proof.
  intros Hm Hk. apply RemoveBeatInfo_absent; [done |].
  apply (eval_Has_false _ k Hm). unfold Go.eval, on_beatMap, Go.zoom in Hk.
  unfold Go.eval. destruct (CMap.Has k (beatMap (reactor s))) as [[b m'] |]; [| done].
  simpl in *. congruence.
Qed.

(** X17. [AddBeatInfo] of a record whose instance id is not in the live map
    stores the caller's record under that id and starts one task bound to
    the id and the record; the other keys, the records behind the pointers
    (the status included), the beat-record map and the semaphore are as
    before. *)
Theorem AddBeatInfo_registers_new_key s p i :
  heap s !! p = Some i →
  CMap.allocated (beatMap (reactor s)) →
  Go.eval (on_beatMap (CMap.Has (InstanceID i))) s = Some false →
  ∃ s',
    AddBeatInfo p s = Some (tt, s') ∧
    Go.eval (on_beatMap (CMap.Get (InstanceID i))) s' = Some (VInstance p, true) ∧
    (∀ k', InstanceID i ≠ k' →
       Go.eval (on_beatMap (CMap.Get k')) s' = Go.eval (on_beatMap (CMap.Get k')) s) ∧
    goroutines s' = goroutines s ++ [(InstanceID i, p)] ∧
    heap s' = heap s ∧
    beatRecordMap (reactor s') = beatRecordMap (reactor s) ∧
    beatThreadSemaphore (reactor s') = beatThreadSemaphore (reactor s) ∧
    trace s' = trace s.
Proof.
  intros Hp Hm Hk.
  assert (Hnone : CMap.find (InstanceID i) (beatMap (reactor s)) = None).
  { apply (eval_Has_false _ _ Hm). unfold Go.eval, on_beatMap, Go.zoom in Hk.
    unfold Go.eval. destruct (CMap.Has _ (beatMap (reactor s))) as [[b m'] |]; [| done].
    simpl in *. congruence. }
  destruct (AddBeatInfo_absent s p i Hp Hm Hnone) as (shard & Hshard & Hadd).
  eexists. split; [exact Hadd |].
  split; [| split; [| done]].
  - rewrite eval_on_beatMap_Get by (simpl; by apply allocated_store). simpl.
    by rewrite find_store_eq, lookup_insert_eq.
  - intros k' Hne.
    rewrite !eval_on_beatMap_Get by (simpl; try apply allocated_store; done). simpl.
    do 2 f_equal. apply (find_store_frame _ _ k' shard); [done |].
    by rewrite lookup_insert_ne.
Qed.

(** X18. On a reactor whose live map holds existing records only, as
    [AddBeatInfo] fills it, neither [AddBeatInfo] of an existing record nor
    [RemoveBeatInfo] of any key panics, and the live map holds existing
    records only afterwards. *)
Theorem registration_never_panics s p svc k :
  live_ok s → is_Some (heap s !! p) →
  (∃ s', AddBeatInfo p s = Some (tt, s') ∧ live_ok s') ∧
  (∃ s', RemoveBeatInfo svc k s = Some (tt, s') ∧ live_ok s').
Proof.
  intros [Hm Hlive] [i Hp].
  assert (Hkeep : ∀ (q : ptr) (iq : Instance) st r,
            heap s !! q = Some iq →
            is_Some (heap s !! r) →
            is_Some (<[q := mkInstance (App iq) (InstanceID iq) st]> (heap s) !! r)).
  { intros q iq st r Hq Hr. apply lookup_insert_is_Some.
    destruct (decide (q = r)); eauto. }
  split.
  - destruct (CMap.find (InstanceID i) (beatMap (reactor s))) as [v |] eqn:Hk.
    + destruct (Hlive _ _ Hk) as (q & -> & [iq Hq]).
      destruct (AddBeatInfo_present s p i q iq Hp Hm Hk Hq) as (live & Hlive' & Hfind & Hadd).
      eexists. split; [exact Hadd |].
      destruct (allocated_shard _ (InstanceID i) Hm) as [shard Hshard].
      rewrite (bind_eq _ _ _ _ _ (Remove_eq _ _ _ Hshard)) in Hlive'.
      rewrite (Set_eq _ _ _ (delete (InstanceID i) shard)) in Hlive'
        by (apply list_lookup_insert_eq; by apply lookup_lt_Some in Hshard).
      injection Hlive' as <-. rewrite list_insert_insert_eq. split; simpl.
      * by apply allocated_store.
      * intros k' v Hk'. destruct (decide (InstanceID i = k')) as [<- | Hne].
        -- rewrite find_store_eq, lookup_insert_eq in Hk' by done.
           injection Hk' as <-. exists q. split; [done |]. eapply Hkeep; eauto.
        -- rewrite (find_store_frame _ _ k' shard) in Hk'; [| done |].
           ++ destruct (Hlive _ _ Hk') as (r & -> & Hr). exists r. split; [done |].
              eapply Hkeep; eauto.
           ++ by rewrite lookup_insert_ne, lookup_delete_ne.
    + destruct (AddBeatInfo_absent s p i Hp Hm Hk) as (shard & Hshard & Hadd).
      eexists. split; [exact Hadd |]. split; simpl.
      * by apply allocated_store.
      * intros k' v Hk'. destruct (decide (InstanceID i = k')) as [<- | Hne].
        -- rewrite find_store_eq, lookup_insert_eq in Hk' by done.
           injection Hk' as <-. exists p. eauto.
        -- rewrite (find_store_frame _ _ k' shard) in Hk'; [| done |].
           ++ by apply (Hlive k').
           ++ by rewrite lookup_insert_ne.
  - destruct (CMap.find k (beatMap (reactor s))) as [v |] eqn:Hk.
    + destruct (Hlive _ _ Hk) as (q & -> & [iq Hq]).
      destruct (RemoveBeatInfo_present s svc k q iq Hm Hk Hq) as (live & Hrm & Hnone & Hrun).
      eexists. split; [exact Hrun |].
      destruct (allocated_shard _ k Hm) as [shard Hshard].
      rewrite (Remove_eq _ _ _ Hshard) in Hrm. injection Hrm as <-. split; simpl.
      * by apply allocated_store.
      * intros k' v Hk'. destruct (decide (k = k')) as [<- | Hne].
        -- by rewrite find_store_eq, lookup_delete_eq in Hk'.
        -- rewrite (find_store_frame _ _ k' shard) in Hk'; [| done |].
           ++ destruct (Hlive _ _ Hk') as (r & -> & Hr). exists r. split; [done |].
              eapply Hkeep; eauto.
           ++ by rewrite lookup_delete_ne.
    + exists s. split; [by apply RemoveBeatInfo_absent | done].
Qed.

End ReactorMore.

(** * Properties of the REST calls, the logger and the client *)

Section RequestsMore.
Import Requests.

Lemma Z_200_300 (code : Z) :
  (code <? StatusOK) || (code >=? StatusMultipleChoices) = false ↔ 200 ≤ code < 300.
Proof. unfold StatusOK, StatusMultipleChoices. rewrite orb_false_iff. lia. Qed.

(** X19. On an answer that carries a response, [StatusOk] lets it through
    without error exactly when there was no earlier error and the status
    is 200, [Status2xx] exactly when there was no earlier error and the
    status is in [200, 300); both keep the response, and both hand back an
    answer that already carries an error as it is. *)
Theorem status_checks_accept r resp :
  Resp r = Some resp →
  ∃ ok r2xx,
    StatusOk r = Some ok ∧ Status2xx r = Some r2xx ∧
    Resp ok = Resp r ∧ Resp r2xx = Resp r ∧
    (Err ok = None ↔ Err r = None ∧ StatusCode resp = 200) ∧
    (Err r2xx = None ↔ Err r = None ∧ 200 ≤ StatusCode resp < 300) ∧
    (is_Some (Err r) → ok = r ∧ r2xx = r).
Proof.
  intros Hresp. unfold StatusOk, Status2xx. rewrite Hresp.
  destruct (Err r) as [e |] eqn:He.
  { exists r, r. rewrite He. repeat split; try done; intros [? ?]; done. }
  pose proof (Z_200_300 (StatusCode resp)) as H2xx.
  assert (Hnone : is_Some (@None error) → False) by (by intros [? ?]).
  destruct (Z.eqb_spec (StatusCode resp) StatusOK) as [Hc | Hc];
    destruct ((StatusCode resp <? StatusOK) || (StatusCode resp >=? StatusMultipleChoices))
      eqn:H2; simpl; unfold StatusOK in Hc;
    eexists _, _; (split; [reflexivity |]); (split; [reflexivity |]); simpl;
    (split; [done |]); (split; [done |]).
  - split; [by rewrite He | split; [| intros H; by destruct (Hnone H)]].
    split; [done |]. intros [_ H]. apply H2xx in H. congruence.
  - split; [by rewrite He | split; [| intros H; by destruct (Hnone H)]].
    rewrite He. split; [intros _; split; [done | by apply H2xx] | done].
  - split; [| split; [| intros H; by destruct (Hnone H)]].
    + split; [done | by intros [_ ?]].
    + split; [done |]. intros [_ H]. apply H2xx in H. congruence.
  - split; [| split; [| intros H; by destruct (Hnone H)]].
    + split; [done | by intros [_ ?]].
    + rewrite He. split; [intros _; split; [done | by apply H2xx] | done].
Qed.

(** X20. The checks are stable and ordered: what [StatusOk] hands back
    passes through [StatusOk] and through [Status2xx] unchanged, so an
    answer accepted as 200 is accepted as 2xx; what [Status2xx] hands back
    passes through [Status2xx] unchanged. *)
Theorem status_checks_compose r r' :
  (StatusOk r = Some r' → StatusOk r' = Some r' ∧ Status2xx r' = Some r') ∧
  (Status2xx r = Some r' → Status2xx r' = Some r').
Proof.
  unfold StatusOk, Status2xx. split.
  - destruct (Err r) eqn:He.
    + intros [= <-]. by rewrite He.
    + destruct (Resp r) as [resp |] eqn:Hr; [| done].
      destruct (Z.eqb_spec (StatusCode resp) StatusOK) as [Hc | Hc]; simpl.
      * intros [= <-]. rewrite He, Hr. rewrite Hc. simpl. done.
      * by intros [= <-].
  - destruct (Err r) eqn:He.
    + intros [= <-]. by rewrite He.
    + destruct (Resp r) as [resp |] eqn:Hr; [| done].
      destruct ((StatusCode resp <? StatusOK) || (StatusCode resp >=? StatusMultipleChoices))
        eqn:H2.
      * by intros [= <-].
      * intros [= <-]. by rewrite He, Hr, H2.
Qed.

End RequestsMore.

Section ApiMore.
Import Reactor.
Context {URL : Type}
  (url_Parse : string → URL * option Requests.error)
  (url_JoinPath : string → string → string * option Requests.error)
  (Path : URL → string)
  (with_Path : string → URL → URL)
  (URL_String : URL → string)
  (url_PathEscape : string → string)
  (exchange : string → string → Requests.Result).

Abbreviation buildURL := (Api.buildURL url_Parse url_JoinPath Path with_Path URL_String).
Abbreviation Heartbeat :=
  (Api.Heartbeat url_Parse url_JoinPath Path with_Path URL_String url_PathEscape exchange).
Abbreviation Register :=
  (Api.Register url_Parse url_JoinPath Path with_Path URL_String url_PathEscape exchange).
Abbreviation UnRegister :=
  (Api.UnRegister url_Parse url_JoinPath Path with_Path URL_String url_PathEscape exchange).
Abbreviation ConnectDetection :=
  (Api.ConnectDetection url_Parse url_JoinPath Path with_Path URL_String url_PathEscape
     exchange).

Lemma Heartbeat_answered zone app instanceID u code :
  buildURL zone ("apps/" +:+ url_PathEscape app +:+ "/" +:+ url_PathEscape instanceID)
  = (u, None) →
  exchange "PUT" u = Requests.mkResult (Some (Requests.mkResponse code)) None →
  Heartbeat zone app instanceID
  = Some (if code =? 200 then None
          else if code =? 404 then Some Requests.ErrNotFound
          else Some (Requests.errorString ("heartbeat failed, invalid status code: "
                                  +:+ Strings.itoa code))).
Proof.
  intros Hu Hx. unfold Api.Heartbeat. rewrite Hu, Hx. simpl.
  unfold Requests.StatusOK, Requests.StatusNotFound.
  by destruct (code =? 200), (code =? 404).
Qed.

(** X21. The registry's answer to the heartbeat decides the pass of the
    task: on status 200 the beat time is recorded and the task goes on; on
    404 the key leaves the live map and the task returns; on any other
    status the task goes on with the reactor as it was. *)
Theorem heartbeat_status_drives_task (s : State) k p i cfg code clock u :
  heap s !! p = Some i → Status i = "UP" → config (reactor s) = Some cfg →
  slot_free s →
  CMap.allocated (beatMap (reactor s)) → CMap.allocated (beatRecordMap (reactor s)) →
  buildURL (DefaultZone cfg)
    ("apps/" +:+ url_PathEscape (App i) +:+ "/" +:+ url_PathEscape (InstanceID i))
  = (u, None) →
  exchange "PUT" u = Requests.mkResult (Some (Requests.mkResponse code)) None →
  ∃ r c s',
    Heartbeat (DefaultZone cfg) (App i) (InstanceID i) = Some r ∧
    loop_body k p (mkEnv false (Api.task_error <$> r) clock) s = Some (c, s') ∧
    (code = 200 →
     c = Continue ∧
     Go.eval (on_beatRecordMap (CMap.Get k)) s' = Some (VInt64 (clock ÷ 1000000), true)) ∧
    (code = 404 →
     c = Return ∧ Go.eval (on_beatMap (CMap.Get k)) s' = Some (VNil, false)) ∧
    (code ≠ 200 → code ≠ 404 → c = Continue ∧ reactor s' = reactor s).
Proof.
  intros Hp Hup Hcfg Hfree Hlive Hrecs Hu Hx.
  rewrite (Heartbeat_answered _ _ _ u code Hu Hx).
  destruct (Z.eqb_spec code 200) as [-> | H200]; [| destruct (Z.eqb_spec code 404) as [-> | H404]].
  - destruct (loop_body_succeeds s k p (mkEnv false None clock) i cfg)
      as (shard & Hshard & Hbody); try done.
    eexists _, _, _. split; [reflexivity |]. split; [exact Hbody |].
    split; [| split; [done | done]]. intros _. split; [done |].
    rewrite eval_on_beatRecordMap_Get by (simpl; by apply allocated_store). simpl.
    by rewrite find_store_eq, lookup_insert_eq.
  - destruct (loop_body_not_found s k p (mkEnv false (Some ErrNotFound) clock) i cfg
                ErrNotFound) as (live & Hrm & Hbody); try done.
    destruct (allocated_shard _ k Hlive) as [shard Hshard].
    rewrite (Remove_eq _ _ _ Hshard) in Hrm. injection Hrm as <-.
    eexists _, _, _. split; [reflexivity |]. split; [exact Hbody |].
    split; [done |]. split; [| done]. intros _. split; [done |].
    rewrite eval_on_beatMap_Get by (simpl; by apply allocated_store). simpl.
    by rewrite find_store_eq, lookup_delete_eq.
  - eexists _, _, _. split; [reflexivity |]. split.
    { by apply (loop_body_transient s k p _ i cfg). }
    split; [done |]. split; [done |]. done.
Qed.

(** X22. [Register] starts the heartbeat only when the registry answers the
    POST with a status in [200, 300): it then does what [AddBeatInfo] does
    and returns nil. When the URL cannot be built, or the exchange reports a
    transport error (with or without a response), it returns that error;
    on any other status it returns an error; in all three cases the state
    is as it was. *)
Theorem Register_beats_only_after_2xx (s : State) zone app p beater u uerr resp err0 :
  buildURL zone ("apps/" +:+ url_PathEscape app) = (u, uerr) →
  exchange "POST" u = Requests.mkResult resp err0 →
  (∀ code, uerr = None → err0 = None → resp = Some (Requests.mkResponse code) →
     200 ≤ code < 300 →
     Register zone app p true s = (AddBeatInfo p ;; Go.ret None) s) ∧
  (∀ err, uerr = Some err → Register zone app p beater s = Some (Some err, s)) ∧
  (∀ err, uerr = None → err0 = Some err →
     Register zone app p beater s = Some (Some err, s)) ∧
  (∀ code, uerr = None → err0 = None → resp = Some (Requests.mkResponse code) →
     ¬ 200 ≤ code < 300 →
     ∃ err, Register zone app p beater s = Some (Some err, s)).
Proof.
  intros Hu Hx. unfold Api.Register. rewrite Hu.
  split; [| split; [| split]].
  - intros code -> -> -> Hc. rewrite Hx.
    unfold Requests.Status2xx, Api.from_option, Go.bind. simpl.
    apply Z_200_300 in Hc. rewrite Hc. simpl.
    by destruct (AddBeatInfo p s) as [[[] s'] |].
  - by intros err ->.
  - intros err -> ->. rewrite Hx.
    by unfold Requests.Status2xx, Api.from_option, Go.bind.
  - intros code -> -> -> Hc. rewrite Hx.
    unfold Requests.Status2xx, Api.from_option, Go.bind. simpl.
    destruct ((code <? Requests.StatusOK) || (code >=? Requests.StatusMultipleChoices)) eqn:H2.
    + by eexists.
    + by apply Z_200_300 in H2.
Qed.

(** X23. [UnRegister] stops the heartbeat only when the registry answers
    the DELETE with status 200 and the instance has a reactor: it then does
    what [RemoveBeatInfo] does on the instance id and returns nil; without
    a reactor it returns nil and changes nothing. When the URL cannot be
    built, or the exchange reports a transport error (with or without a
    response), it returns that error; on another status, 204 included, it
    returns an error; in all three cases the state is as it was. *)
Theorem UnRegister_stops_only_after_200 (s : State) zone app p i beater u uerr resp err0 :
  heap s !! p = Some i →
  buildURL zone ("apps/" +:+ url_PathEscape app +:+ "/" +:+ url_PathEscape (InstanceID i))
  = (u, uerr) →
  exchange "DELETE" u = Requests.mkResult resp err0 →
  (uerr = None → err0 = None → resp = Some (Requests.mkResponse 200) →
   UnRegister zone app p true s = (RemoveBeatInfo app (InstanceID i) ;; Go.ret None) s ∧
   UnRegister zone app p false s = Some (None, s)) ∧
  (∀ err, uerr = Some err → UnRegister zone app p beater s = Some (Some err, s)) ∧
  (∀ err, uerr = None → err0 = Some err →
     UnRegister zone app p beater s = Some (Some err, s)) ∧
  (∀ code, uerr = None → err0 = None → resp = Some (Requests.mkResponse code) →
     code ≠ 200 →
     ∃ err, UnRegister zone app p beater s = Some (Some err, s)).
Proof.
  intros Hp Hu Hx. pose proof (load_eq p s i Hp) as Hload.
  unfold Api.UnRegister, Go.bind. rewrite Hload. cbv beta iota. rewrite Hu.
  split; [| split; [| split]].
  - intros -> -> ->. rewrite Hx. unfold Requests.StatusOk, Api.from_option. simpl.
    split; [| done].
    by destruct (RemoveBeatInfo app (InstanceID i) s) as [[[] s'] |].
  - by intros err ->.
  - intros err -> ->. rewrite Hx. by unfold Requests.StatusOk, Api.from_option.
  - intros code -> -> -> Hc. rewrite Hx. unfold Requests.StatusOk, Api.from_option. simpl.
    destruct (Z.eqb_spec code Requests.StatusOK) as [H200 | H200]; [done |]. simpl.
    by eexists.
Qed.

(** X24. [ConnectDetection] reports the registry as reachable exactly when
    the heartbeat is answered with status 200 or 404. *)
Theorem ConnectDetection_accepts_200_and_404 zone app instanceID u code :
  buildURL zone ("apps/" +:+ url_PathEscape app +:+ "/" +:+ url_PathEscape instanceID)
  = (u, None) →
  exchange "PUT" u = Requests.mkResult (Some (Requests.mkResponse code)) None →
  ∃ r,
    ConnectDetection zone app instanceID = Some r ∧
    (r = None ↔ code = 200 ∨ code = 404).
Proof.
  intros Hu Hx. unfold Api.ConnectDetection.
  rewrite (Heartbeat_answered _ _ _ u code Hu Hx).
  destruct (Z.eqb_spec code 200) as [-> | H200]; [| destruct (Z.eqb_spec code 404) as [-> | H404]].
  - exists None. split; [done |]. split; [by left | done].
  - exists None. split; [done |]. split; [by right | done].
  - eexists. split; [reflexivity |]. simpl. split; [done |]. intros [? | ?]; done.
Qed.

End ApiMore.

Section LogMore.
Import Log.

(** X25. A logger made by [NewLogger] has a level of at least 1: a level
    of 1 or more is kept as given, anything lower is replaced by one of the
    four named levels taken from the environment, [INFO] by default. So
    [Error] writes its message whatever level was asked for. *)
Theorem NewLogger_never_silences_errors (strings_ToUpper : string → string)
    (os_Getenv : string → string) (logLevel : Z) msg err :
  let l := NewLogger strings_ToUpper os_Getenv logLevel in
  1 ≤ level l ∧
  (1 ≤ logLevel → level l = logLevel) ∧
  (logLevel < 1 → level l ∈ [DEBUG; INFO; WARN; ERROR]) ∧
  (logLevel < 1 →
   strings_ToUpper (os_Getenv "LOG_LEVEL") ∉ ["DEBUG"; "INFO"; "WARN"; "ERROR"] →
   level l = INFO) ∧
  is_Some (Error l msg err).
Proof.
  simpl. unfold NewLogger, initialize. simpl.
  destruct (Z.ltb_spec logLevel 1) as [Hlow | Hhigh].
  - set (v := strings_ToUpper (os_Getenv "LOG_LEVEL")).
    destruct (String.eqb_spec v "DEBUG") as [Hd | Hd];
      [| destruct (String.eqb_spec v "INFO") as [Hi | Hi];
         [| destruct (String.eqb_spec v "WARN") as [Hw | Hw];
            [| destruct (String.eqb_spec v "ERROR") as [He | He]]]];
      unfold Error; simpl; unfold DEBUG, INFO, WARN, ERROR;
      (split; [lia |]); (split; [lia |]);
      (split; [intros _; set_solver |]);
      (split; [| by eexists]); intros _ Hnot; try done;
      exfalso; apply Hnot; rewrite ?Hd, ?Hi, ?Hw, ?He; set_solver.
  - unfold Error. simpl. split; [lia |]. split; [done |].
    split; [lia |]. split; [lia |].
    destruct (Z.geb_spec logLevel ERROR) as [? | Hlt]; [by eexists |].
    unfold ERROR in Hlt. lia.
Qed.

(** X26. The levels nest: whenever [Debug] writes, [Info] writes; whenever
    [Info] writes, [Warn] writes; whenever [Warn] writes, [Error]
    writes. *)
Theorem log_levels_nest (l : DefaultLogger) msg err :
  (is_Some (Debug l msg) → is_Some (Info l msg)) ∧
  (is_Some (Info l msg) → is_Some (Warn l msg err)) ∧
  (is_Some (Warn l msg err) → is_Some (Error l msg err)).
Proof.
  unfold Debug, Info, Warn, Error, DEBUG, INFO, WARN, ERROR.
  destruct (Z.geb_spec (level l) 4), (Z.geb_spec (level l) 3),
    (Z.geb_spec (level l) 2), (Z.geb_spec (level l) 1);
    repeat split; intros [? ?]; try done; try (by eexists); lia.
Qed.

End LogMore.

Section ClientMore.
Import Client.

Lemma substring_all (s : string) : substring 0 (String.length s) s = s.
Proof. induction s as [| a s IH]; [done |]. simpl. by rewrite IH. Qed.

Lemma length_app_string (s t : string) :
  String.length (s +:+ t) = (String.length s + String.length t)%nat.
Proof. induction s as [| a s IH]; [done |]. simpl. by rewrite IH. Qed.

Lemma substring_app_skip (s t : string) :
  substring (String.length s) (String.length t) (s +:+ t) = t.
Proof. induction s as [| a s IH]; [apply substring_all | done]. Qed.

Lemma HasSuffix_app (s suffix : string) : Strings.HasSuffix (s +:+ suffix) suffix = true.
Proof.
  unfold Strings.HasSuffix. rewrite length_app_string.
  replace (String.length s + String.length suffix - String.length suffix)%nat
    with (String.length s) by lia.
  rewrite substring_app_skip, String.eqb_refl, andb_true_r.
  apply Nat.leb_le. lia.
Qed.

Lemma app_colon_nonempty (s t : string) : s +:+ ":" +:+ t ≠ "".
Proof. by destruct s. Qed.

(** X27. After [DefaultConfig] the zone ends with a slash, none of the
    three intervals and not the port is 0, the instance id is not empty, an
    empty application name has become ["unknown"], and a host name left
    empty is the IP address; version and log level are as given. *)
Theorem DefaultConfig_fills_defaults (strings_ToLower : string → string)
    (GetLocalIP : string) (config : Config) :
  let d := DefaultConfig strings_ToLower GetLocalIP config in
  Strings.HasSuffix (DefaultZone d) "/" = true ∧
  RenewalIntervalInSecs d ≠ 0 ∧
  RegistryFetchIntervalSeconds d ≠ 0 ∧
  DurationInSecs d ≠ 0 ∧
  Port d ≠ 0 ∧
  InstanceID d ≠ "" ∧
  (App config = "" → App d = "unknown") ∧
  (HostName config = "" → HostName d = IP d) ∧
  (IP config = "" → IP d = GetLocalIP) ∧
  Version d = Version config ∧ LogLevel d = LogLevel config.
Proof.
  simpl. unfold DefaultConfig. simpl. repeat split.
  - set (zone := if String.eqb (DefaultZone config) ""
                 then "http://localhost:8761/eureka/" else DefaultZone config).
    destruct (Strings.HasSuffix zone "/") eqn:Hs; simpl; [done |]. apply HasSuffix_app.
  - by destruct (Z.eqb_spec (RenewalIntervalInSecs config) 0).
  - by destruct (Z.eqb_spec (RegistryFetchIntervalSeconds config) 0).
  - by destruct (Z.eqb_spec (DurationInSecs config) 0).
  - by destruct (Z.eqb_spec (Port config) 0).
  - destruct (String.eqb_spec (InstanceID config) ""); [| done].
    apply app_colon_nonempty.
  - by intros ->.
  - by intros ->.
  - by intros ->.
Qed.

(** X28. [DefaultConfig] leaves a configuration that is filled in as it
    is, but for the application name, which it lower-cases; values other
    than 0, negative ones included, are not replaced. *)
Theorem DefaultConfig_keeps_given_values (strings_ToLower : string → string)
    (GetLocalIP : string) (config : Config) :
  Strings.HasSuffix (DefaultZone config) "/" = true →
  RenewalIntervalInSecs config ≠ 0 →
  RegistryFetchIntervalSeconds config ≠ 0 →
  DurationInSecs config ≠ 0 →
  Port config ≠ 0 →
  InstanceID config ≠ "" → App config ≠ "" → IP config ≠ "" → HostName config ≠ "" →
  DefaultConfig strings_ToLower GetLocalIP config
  = mkConfig (DefaultZone config) (RenewalIntervalInSecs config)
      (RegistryFetchIntervalSeconds config) (DurationInSecs config)
      (InstanceID config) (strings_ToLower (App config)) (Version config)
      (HostName config) (IP config) (Port config) (LogLevel config).
Proof.
  intros Hz Hr Hf Hd Hp Hid Happ Hip Hhost. unfold DefaultConfig.
  assert (Hzone : DefaultZone config ≠ "").
  { intros E. by rewrite E in Hz. }
  apply String.eqb_neq in Hzone, Hid, Happ, Hip, Hhost.
  apply Z.eqb_neq in Hr, Hf, Hd, Hp.
  by rewrite Hzone, Hz, Hr, Hf, Hd, Hp, Hid, Happ, Hip, Hhost.
Qed.

(** X29. The reactor [NewInstance] builds from a configuration that went
    through [DefaultConfig] beats every 30 seconds when the renewal
    interval was left at 0, every 5 seconds when it was negative, and at
    the given interval otherwise; the instance starts with status ["UP"]
    under the configuration's instance id. *)
Theorem NewInstance_beat_interval (strings_ToLower : string → string)
    (GetLocalIP : string) (config : Config) :
  RenewalIntervalInSecs config ≤ 9223372036 →
  let d := DefaultConfig strings_ToLower GetLocalIP config in
  let secs := if RenewalIntervalInSecs config =? 0 then 30
              else if RenewalIntervalInSecs config <? 0 then 5
              else RenewalIntervalInSecs config in
  ∃ i beater,
    NewInstance d = Some (i, beater) ∧
    Reactor.Status i = "UP" ∧
    Reactor.InstanceID i = InstanceID d ∧
    Reactor.App i = App d ∧
    Reactor.clientBeatIntervalInSecs beater = secs ∧
    Reactor.Period beater = secs * Reactor.Second ∧
    Reactor.config beater = Some (reactor_config d).
Proof.
  intros Hmax d secs.
  assert (Hd : RenewalIntervalInSecs d
               = if RenewalIntervalInSecs config =? 0 then 30
                 else RenewalIntervalInSecs config) by done.
  assert (Hnorm : (if RenewalIntervalInSecs d <=? 0 then 5 else RenewalIntervalInSecs d)
                  = secs).
  { rewrite Hd. unfold secs.
    destruct (Z.eqb_spec (RenewalIntervalInSecs config) 0) as [E | Hne]; [done |].
    destruct (Z.leb_spec (RenewalIntervalInSecs config) 0),
      (Z.ltb_spec (RenewalIntervalInSecs config) 0); try done; lia. }
  assert (Hsecs : 0 < secs ≤ 9223372036).
  { unfold secs. destruct (Z.eqb_spec (RenewalIntervalInSecs config) 0); [lia |].
    destruct (Z.ltb_spec (RenewalIntervalInSecs config) 0); lia. }
  unfold NewInstance, Reactor.NewBeatReactor. rewrite Hnorm.
  eexists _, _. split; [reflexivity |]. cbn [Reactor.Status Reactor.InstanceID
    Reactor.App Reactor.clientBeatIntervalInSecs Reactor.Period Reactor.config].
  repeat split. apply int64_small. unfold Reactor.Second.
  change (2 ^ 63) with 9223372036854775808. lia.
Qed.

(** X30. [GetApplicationInstance] returns the instances of the
    applications whose name is exactly the one asked for, in the order of
    the registry's list, and nothing else; before the first refresh
    (applications nil) it returns none. *)
Theorem GetApplicationInstance_filters_by_name {I : Type}
    (apps : list (Application (I := I))) (name : string) :
  GetApplicationInstance (Some apps) name
  = mjoin (Instances <$> filter (λ app, Name app = name) apps) ∧
  (∀ x, x ∈ GetApplicationInstance (Some apps) name ↔
        ∃ app, app ∈ apps ∧ Name app = name ∧ x ∈ Instances app) ∧
  GetApplicationInstance (I := I) None name = [].
Proof.
  assert (Hgen : ∀ (l : list (Application (I := I))) acc,
    fold_left (λ instances app,
                 if String.eqb (Name app) name then instances ++ Instances app
                 else instances) l acc
    = acc ++ mjoin (Instances <$> filter (λ app, Name app = name) l)).
  { induction l as [| app l IH]; intros acc; simpl.
    - by rewrite (right_id_L [] (++)).
    - rewrite IH, filter_cons.
      destruct (String.eqb_spec (Name app) name) as [E | E].
      + rewrite decide_True by done. simpl. by rewrite <- (assoc_L (++)).
      + by rewrite decide_False by done. }
  assert (Heq : GetApplicationInstance (Some apps) name
                = mjoin (Instances <$> filter (λ app, Name app = name) apps)).
  { unfold GetApplicationInstance. by rewrite Hgen. }
  split; [exact Heq |]. split; [| done].
  intros x. rewrite Heq, list_elem_of_join. split.
  - intros (l & Hx & Hl). apply list_elem_of_fmap in Hl as (app & -> & Happ).
    apply list_elem_of_filter in Happ as [Hname Hin]. eauto.
  - intros (app & Hin & Hname & Hx). exists (Instances app). split; [done |].
    apply list_elem_of_fmap. exists app. split; [done |].
    by apply list_elem_of_filter.
Qed.

End ClientMore.

Lemma task_never_panics_witness :
  let es := [Reactor.mkEnv false None 1700000000000000000;
             Reactor.mkEnv false (Some Reactor.ErrOther) 0;
             Reactor.mkEnv false (Some Reactor.ErrNotFound) 0;
             Reactor.mkEnv false None 0] in
  ∃ c s',
    Reactor.sendInstanceBeat Scenario.key 1%positive es Scenario.registered = Some (c, s') ∧
    Reactor.ready s' 1%positive ∧ Reactor.evolves Scenario.registered s' ∧
    Reactor.cur (Reactor.beatThreadSemaphore (Reactor.reactor s'))
    ≤ Reactor.cur (Reactor.beatThreadSemaphore (Reactor.reactor Scenario.registered)) + 1 ∧
    (c ≠ Reactor.Return →
     Reactor.cur (Reactor.beatThreadSemaphore (Reactor.reactor s'))
     = Reactor.cur (Reactor.beatThreadSemaphore (Reactor.reactor Scenario.registered))).
Proof.
  apply (task_never_panics Scenario.registered Scenario.key 1%positive).
  unfold Reactor.ready. vm_compute. repeat split; eauto; discriminate.
Defined.

Lemma no_slot_no_heartbeat_witness :
  Reactor.loop_body Scenario.key 1%positive (Reactor.mkEnv false None 0) Scenario.saturated
  = Some (Reactor.Waiting, Scenario.saturated).
Proof.
  apply (no_slot_no_heartbeat Scenario.saturated Scenario.key 1%positive
           (Reactor.mkEnv false None 0)).
  vm_compute. discriminate.
Defined.

Lemma successful_beat_is_recorded_witness :
  let e := Reactor.mkEnv false None 1700000000123456789 in
  ∃ s',
    Reactor.loop_body Scenario.key 1%positive e Scenario.registered
    = Some (Reactor.Continue, s') ∧
    Go.eval (Reactor.on_beatRecordMap (Get Scenario.key)) s'
    = Some (Reactor.VInt64 (1700000000123456789 ÷ 1000000), true) ∧
    (∀ k', Scenario.key ≠ k' →
       Go.eval (Reactor.on_beatRecordMap (Get k')) s'
       = Go.eval (Reactor.on_beatRecordMap (Get k')) Scenario.registered) ∧
    Reactor.beatMap (Reactor.reactor s') = Reactor.beatMap (Reactor.reactor Scenario.registered) ∧
    Reactor.beatThreadSemaphore (Reactor.reactor s')
    = Reactor.beatThreadSemaphore (Reactor.reactor Scenario.registered) ∧
    Reactor.heap s' = Reactor.heap Scenario.registered ∧
    Reactor.trace s'
    = Reactor.trace Scenario.registered
      ++ Reactor.beat_pass Scenario.registered Scenario.cfg Scenario.first_record.
Proof.
  apply (successful_beat_is_recorded Scenario.registered Scenario.key 1%positive
           (Reactor.mkEnv false None 1700000000123456789)
           Scenario.first_record Scenario.cfg).
  - vm_compute. reflexivity.
  - reflexivity.
  - reflexivity.
  - vm_compute. split; [discriminate | reflexivity].
  - reflexivity.
  - vm_compute. reflexivity.
Defined.

Lemma record_not_UP_ends_task_witness :
  let e := Reactor.mkEnv false None 0 in
  Reactor.sendInstanceBeat Scenario.key 1%positive [e; e; e] Scenario.marked_down
  = Some (Reactor.Return,
          Reactor.with_trace Scenario.marked_down [Reactor.EvAcquire; Reactor.EvRelease]).
Proof.
  apply (record_not_UP_ends_task Scenario.marked_down Scenario.key 1%positive
           (Reactor.mkEnv false None 0) _
           (Reactor.mkInstance "ORDER-SERVICE" Scenario.key "DOWN")).
  - vm_compute. reflexivity.
  - discriminate.
  - vm_compute. split; [discriminate | reflexivity].
  - reflexivity.
Defined.

Lemma beats_until_not_found_witness :
  let ok t := Reactor.mkEnv false None t in
  let oks := [ok 1000000000; ok 2000000000; ok 3000000000] in
  let e := Reactor.mkEnv false (Some Reactor.ErrNotFound) 4000000000 in
  let s := Scenario.registered in
  ∃ s',
    Reactor.sendInstanceBeat Scenario.key 1%positive (oks ++ e :: [ok 5000000000]) s
    = Some (Reactor.Return, s') ∧
    Reactor.trace s'
    = Reactor.trace s
      ++ mjoin (replicate (List.length oks)
                  (Reactor.beat_pass s Scenario.cfg Scenario.first_record))
      ++ [Reactor.EvAcquire;
          Reactor.EvHeartbeat (Reactor.DefaultZone Scenario.cfg)
            (Reactor.App Scenario.first_record)
            (Reactor.InstanceID Scenario.first_record)] ∧
    Go.eval (Reactor.on_beatMap (Get Scenario.key)) s' = Some (Reactor.VNil, false) ∧
    Go.eval (Reactor.on_beatRecordMap (Get Scenario.key)) s'
    = Some (found
              match last oks with
              | Some ok => Some (Reactor.VInt64 (Reactor.now ok ÷ 1000000))
              | None => find Scenario.key (Reactor.beatRecordMap (Reactor.reactor s))
              end) ∧
    Reactor.cur (Reactor.beatThreadSemaphore (Reactor.reactor s'))
    = Reactor.cur (Reactor.beatThreadSemaphore (Reactor.reactor s)) + 1.
Proof.
  apply (beats_until_not_found Scenario.registered Scenario.key 1%positive
           Scenario.first_record Scenario.cfg).
  - vm_compute. reflexivity.
  - reflexivity.
  - reflexivity.
  - vm_compute. split; [discriminate | reflexivity].
  - vm_compute. reflexivity.
  - vm_compute. reflexivity.
  - reflexivity.
  - reflexivity.
Defined.

Lemma RemoveBeatInfo_unknown_key_is_noop_witness :
  Reactor.RemoveBeatInfo "ORDER-SERVICE" "localhost:other:1" Scenario.registered
  = Some (tt, Scenario.registered).
Proof.
  apply (RemoveBeatInfo_unknown_key_is_noop Scenario.registered).
  - vm_compute. reflexivity.
  - vm_compute. reflexivity.
Defined.

Lemma AddBeatInfo_registers_new_key_witness :
  let s := Scenario.fresh in
  let i := Scenario.first_record in
  ∃ s',
    Reactor.AddBeatInfo 1%positive s = Some (tt, s') ∧
    Go.eval (Reactor.on_beatMap (Get (Reactor.InstanceID i))) s'
    = Some (Reactor.VInstance 1, true) ∧
    (∀ k', Reactor.InstanceID i ≠ k' →
       Go.eval (Reactor.on_beatMap (Get k')) s' = Go.eval (Reactor.on_beatMap (Get k')) s) ∧
    Reactor.goroutines s' = Reactor.goroutines s ++ [(Reactor.InstanceID i, 1%positive)] ∧
    Reactor.heap s' = Reactor.heap s ∧
    Reactor.beatRecordMap (Reactor.reactor s') = Reactor.beatRecordMap (Reactor.reactor s) ∧
    Reactor.beatThreadSemaphore (Reactor.reactor s')
    = Reactor.beatThreadSemaphore (Reactor.reactor s) ∧
    Reactor.trace s' = Reactor.trace s.
Proof.
  apply (AddBeatInfo_registers_new_key Scenario.fresh 1%positive Scenario.first_record).
  - vm_compute. reflexivity.
  - vm_compute. reflexivity.
  - vm_compute. reflexivity.
Defined.

Lemma registration_never_panics_witness :
  let s := Scenario.registered in
  (∃ s', Reactor.AddBeatInfo 2%positive s = Some (tt, s') ∧ Reactor.live_ok s') ∧
  (∃ s', Reactor.RemoveBeatInfo "ORDER-SERVICE" Scenario.key s = Some (tt, s')
         ∧ Reactor.live_ok s').
Proof.
  apply (registration_never_panics Scenario.registered 2%positive).
  - apply live_okb_sound. vm_compute. reflexivity.
  - vm_compute. eauto.
Defined.

Lemma status_checks_accept_witness :
  let r := Requests.mkResult (Some (Requests.mkResponse 204)) None in
  ∃ ok r2xx,
    Requests.StatusOk r = Some ok ∧ Requests.Status2xx r = Some r2xx ∧
    Requests.Resp ok = Requests.Resp r ∧ Requests.Resp r2xx = Requests.Resp r ∧
    (Requests.Err ok = None ↔ Requests.Err r = None ∧ 204 = 200) ∧
    (Requests.Err r2xx = None ↔ Requests.Err r = None ∧ 200 ≤ 204 < 300) ∧
    (is_Some (Requests.Err r) → ok = r ∧ r2xx = r).
Proof.
  apply (status_checks_accept
           (Requests.mkResult (Some (Requests.mkResponse 204)) None)
           (Requests.mkResponse 204)).
  reflexivity.
Defined.

Lemma heartbeat_status_drives_task_witness :
  let s := Scenario.registered in
  let heartbeat :=
    Api.Heartbeat Stub.parse Stub.join Stub.path Stub.with_path Stub.path Stub.escape
      (Stub.answers 404) in
  ∃ r c s',
    heartbeat (Reactor.DefaultZone Scenario.cfg) (Reactor.App Scenario.first_record)
      (Reactor.InstanceID Scenario.first_record) = Some r ∧
    Reactor.loop_body Scenario.key 1%positive
      (Reactor.mkEnv false (Api.task_error <$> r) 0) s = Some (c, s') ∧
    (404 = 200 →
     c = Reactor.Continue ∧
     Go.eval (Reactor.on_beatRecordMap (Get Scenario.key)) s'
     = Some (Reactor.VInt64 (0 ÷ 1000000), true)) ∧
    (404 = 404 →
     c = Reactor.Return ∧
     Go.eval (Reactor.on_beatMap (Get Scenario.key)) s' = Some (Reactor.VNil, false)) ∧
    (404 ≠ 200 → 404 ≠ 404 →
     c = Reactor.Continue ∧ Reactor.reactor s' = Reactor.reactor s).
Proof.
  eapply (heartbeat_status_drives_task Stub.parse Stub.join Stub.path Stub.with_path
            Stub.path Stub.escape (Stub.answers 404)
            Scenario.registered Scenario.key 1%positive Scenario.first_record
            Scenario.cfg 404 0).
  - vm_compute. reflexivity.
  - reflexivity.
  - reflexivity.
  - vm_compute. split; [discriminate | reflexivity].
  - vm_compute. reflexivity.
  - vm_compute. reflexivity.
  - reflexivity.
  - reflexivity.
Defined.

Lemma Register_beats_only_after_2xx_witness :
  let register :=
    Api.Register Stub.parse Stub.join Stub.path Stub.with_path Stub.path Stub.escape
      Stub.refuses in
  let s := Scenario.fresh in
  let zone := "http://localhost:8761/eureka/" in
  let uerr : option Requests.error := None in
  let resp : option Requests.Response := None in
  let err0 := Some (Requests.foreign "connection refused") in
  (∀ code, uerr = None → err0 = None → resp = Some (Requests.mkResponse code) →
     200 ≤ code < 300 →
     register zone "ORDER-SERVICE" 1%positive true s
     = (Reactor.AddBeatInfo 1%positive ;; Go.ret None) s) ∧
  (∀ err, uerr = Some err →
     register zone "ORDER-SERVICE" 1%positive true s = Some (Some err, s)) ∧
  (∀ err, uerr = None → err0 = Some err →
     register zone "ORDER-SERVICE" 1%positive true s = Some (Some err, s)) ∧
  (∀ code, uerr = None → err0 = None → resp = Some (Requests.mkResponse code) →
     ¬ 200 ≤ code < 300 →
     ∃ err, register zone "ORDER-SERVICE" 1%positive true s = Some (Some err, s)).
Proof.
  eapply (Register_beats_only_after_2xx Stub.parse Stub.join Stub.path Stub.with_path
            Stub.path Stub.escape Stub.refuses Scenario.fresh
            "http://localhost:8761/eureka/" "ORDER-SERVICE" 1%positive true).
  - reflexivity.
  - reflexivity.
Defined.

Lemma UnRegister_stops_only_after_200_witness :
  let unregister :=
    Api.UnRegister Stub.parse Stub.join Stub.path Stub.with_path Stub.path Stub.escape
      Stub.refuses in
  let s := Scenario.registered in
  let zone := "http://localhost:8761/eureka/" in
  let uerr : option Requests.error := None in
  let resp : option Requests.Response := None in
  let err0 := Some (Requests.foreign "connection refused") in
  (uerr = None → err0 = None → resp = Some (Requests.mkResponse 200) →
   unregister zone "ORDER-SERVICE" 1%positive true s
   = (Reactor.RemoveBeatInfo "ORDER-SERVICE" (Reactor.InstanceID Scenario.first_record) ;;
      Go.ret None) s ∧
   unregister zone "ORDER-SERVICE" 1%positive false s = Some (None, s)) ∧
  (∀ err, uerr = Some err →
     unregister zone "ORDER-SERVICE" 1%positive true s = Some (Some err, s)) ∧
  (∀ err, uerr = None → err0 = Some err →
     unregister zone "ORDER-SERVICE" 1%positive true s = Some (Some err, s)) ∧
  (∀ code, uerr = None → err0 = None → resp = Some (Requests.mkResponse code) →
     code ≠ 200 →
     ∃ err, unregister zone "ORDER-SERVICE" 1%positive true s = Some (Some err, s)).
Proof.
  eapply (UnRegister_stops_only_after_200 Stub.parse Stub.join Stub.path Stub.with_path
            Stub.path Stub.escape Stub.refuses Scenario.registered
            "http://localhost:8761/eureka/" "ORDER-SERVICE" 1%positive
            Scenario.first_record true).
  - vm_compute. reflexivity.
  - reflexivity.
  - reflexivity.
Defined.

Lemma ConnectDetection_accepts_200_and_404_witness :
  ∃ r,
    Api.ConnectDetection Stub.parse Stub.join Stub.path Stub.with_path Stub.path
      Stub.escape (Stub.answers 404)
      "http://localhost:8761/eureka/" "ORDER-SERVICE" Scenario.key = Some r ∧
    (r = None ↔ 404 = 200 ∨ 404 = 404).
Proof.
  eapply (ConnectDetection_accepts_200_and_404 Stub.parse Stub.join Stub.path
            Stub.with_path Stub.path Stub.escape (Stub.answers 404)).
  - reflexivity.
  - reflexivity.
Defined.

Lemma DefaultConfig_keeps_given_values_witness :
  Client.DefaultConfig Stub.keep_case "192.168.0.2" Stub.filled
  = Client.mkConfig "http://eureka:8761/eureka/" 10 15 90 "order:10.0.0.1:8886"
      (Stub.keep_case "ORDER") "1.0" "order-host" "10.0.0.1" 8886 0.
Proof.
  apply (DefaultConfig_keeps_given_values Stub.keep_case "192.168.0.2" Stub.filled);
    (reflexivity || discriminate).
Defined.

Lemma NewInstance_beat_interval_witness :
  let config := Client.mkConfig "" (-3) 0 0 "" "" "" "" "" 0 0 in
  let d := Client.DefaultConfig Stub.keep_case "192.168.0.2" config in
  ∃ i beater,
    Client.NewInstance d = Some (i, beater) ∧
    Reactor.Status i = "UP" ∧
    Reactor.InstanceID i = Client.InstanceID d ∧
    Reactor.App i = Client.App d ∧
    Reactor.clientBeatIntervalInSecs beater = 5 ∧
    Reactor.Period beater = 5 * Reactor.Second ∧
    Reactor.config beater = Some (Client.reactor_config d).
Proof.
  apply (NewInstance_beat_interval Stub.keep_case "192.168.0.2"
           (Client.mkConfig "" (-3) 0 0 "" "" "" "" "" 0 0)).
  vm_compute. discriminate.
Defined.
